(** * Image tool UI (src/ui.js): status markers, media element, resized URLs

    A shallow embedding of the [Ui] class of the Editor.js image tool and of
    the module-level helper [getResizedUrl], with the JavaScript built-ins
    they call ([String.prototype.includes], [split], [join],
    [decodeURIComponent], [JSON.stringify], [TextEncoder.encode],
    [DOMTokenList.toggle]) written out as Rocq functions.

    JavaScript strings are sequences of UTF-16 code units: a string is a
    [list N] whose elements are meant to be below 65536 ([wf_string]).
    An abrupt completion (a thrown exception) is a value of [completion].

    Code units are written by value where the code tests for them:
    9 tab, 10 line feed, 13 carriage return, 32 space, 34 the double quote,
    35 #, 37 %, 43 +, 44 comma, 45 -, 46 full stop, 47 /, 48 to 57 the
    digits, 58 colon, 61 =, 63 ?, 65 to 90 A to Z, 91 [, 92 backslash, 93 ],
    97 to 122 a to z, 123 and 125 the braces; 55296 to 56319 are the leading
    and 56320 to 57343 the trailing surrogates, 65533 is U+FFFD and 1114111
    is U+10FFFF. *)

From Stdlib Require Import List NArith ZArith Lia Bool String Ascii.
From Stdlib Require Decimal DecimalZ DecimalPos DecimalFacts.
Import ListNotations.

Local Open Scope N_scope.

#[local] Set Warnings "-register-all".

(* ================================================================== *)
(** ** JavaScript strings *)

Abbreviation code_unit := N (only parsing).
Abbreviation jsstring := (list N) (only parsing).

(** An ASCII literal of the source as a JavaScript string. *)
Definition lit (s : string) : jsstring :=
  List.map N_of_ascii (list_ascii_of_string s).

Definition is_u16 (c : code_unit) : bool := c <? 65536.
Definition wf_string (s : jsstring) : Prop := Forall (fun c => c < 65536) s.

Fixpoint str_eqb (a b : jsstring) : bool :=
  match a, b with
  | [], [] => true
  | x :: a', y :: b' => (x =? y) && str_eqb a' b'
  | _, _ => false
  end.

(** [needle] is a prefix of [s]. *)
Fixpoint startsWith (needle s : jsstring) : bool :=
  match needle, s with
  | [], _ => true
  | _ :: _, [] => false
  | x :: n', y :: s' => (x =? y) && startsWith n' s'
  end.

(** [s.includes(needle)]: [needle] occurs somewhere in [s]. *)
Fixpoint includes (needle s : jsstring) : bool :=
  startsWith needle s ||
  match s with
  | [] => false
  | _ :: s' => includes needle s'
  end.

(** [s.endsWith(suffix)], which is what the regular expressions
    [/\.mp4$/] and [/\.mp3$/] (no [m] flag) test. *)
Definition endsWith (suffix s : jsstring) : bool :=
  startsWith (List.rev suffix) (List.rev s).

(** [s.split(sep)] for a non-empty separator, scanning left to right for
    non-overlapping occurrences.  [skip] counts the code units of a matched
    separator that are still to be dropped.  The head of the result is the
    part under construction. *)
Fixpoint split_from (sep : jsstring) (skip : nat) (s : jsstring)
  : list jsstring :=
  match s with
  | [] => [[]]
  | c :: s' =>
      match skip with
      | S k => split_from sep k s'
      | O =>
          if startsWith sep s
          then [] :: split_from sep (pred (List.length sep)) s'
          else match split_from sep O s' with
               | part :: parts => (c :: part) :: parts
               | [] => [[c]]
               end
      end
  end.

(** [s.split(sep)]; with the empty separator every code unit is a part. *)
Definition split (sep s : jsstring) : list jsstring :=
  match sep with
  | [] => List.map (fun c => [c]) s
  | _ :: _ => split_from sep O s
  end.

(** [parts.join(sep)]. *)
Fixpoint join (sep : jsstring) (parts : list jsstring) : jsstring :=
  match parts with
  | [] => []
  | [p] => p
  | p :: ps => p ++ sep ++ join sep ps
  end.

(* ================================================================== *)
(** ** Completions *)

Inductive JsError : Type :=
| URIError
| SyntaxError
| InvalidCharacterError.

Inductive completion (A : Type) : Type :=
| Normal (a : A)
| Throw (e : JsError).
Arguments Normal {A} a.
Arguments Throw {A} e.

Definition bind {A B} (m : completion A) (k : A -> completion B)
  : completion B :=
  match m with
  | Normal a => k a
  | Throw e => Throw e
  end.

Notation "x <- m ;; k" := (bind m (fun x => k))
  (at level 61, m at next level, right associativity).

(** [xs.map(f)] for a callback that may throw: the first exception
    propagates. *)
Fixpoint mapM {A B} (f : A -> completion B) (xs : list A)
  : completion (list B) :=
  match xs with
  | [] => Normal []
  | x :: xs' => y <- f x ;; ys <- mapM f xs' ;; Normal (y :: ys)
  end.

Definition returns {A} (m : completion A) : bool :=
  match m with Normal _ => true | Throw _ => false end.

(* ================================================================== *)
(** ** decodeURIComponent (ECMA-262, Decode with an empty preserve set) *)

Definition hexval (c : code_unit) : option N :=
  if (48 <=? c) && (c <=? 57) then Some (c - 48)
  else if (65 <=? c) && (c <=? 70) then Some (c - 55)
  else if (97 <=? c) && (c <=? 102) then Some (c - 87)
  else None.

Definition hex_octet (h l : code_unit) : option N :=
  match hexval h, hexval l with
  | Some a, Some b => Some (16 * a + b)
  | _, _ => None
  end.

(** UTF16EncodeCodePoint. *)
Definition utf16_of_code_point (v : N) : jsstring :=
  if v <? 65536 then [v]
  else [55296 + (v - 65536) / 1024; 56320 + (v - 65536) mod 1024].

(** What the decoder is in the middle of: nothing, or a multi-octet UTF-8
    sequence of which [need] continuation octets are still to come, [acc]
    holding the bits read so far and [lowest] the smallest code point a
    sequence of this length may encode. *)
Inductive pending : Type :=
| Idle
| Cont (need : nat) (acc : N) (lowest : N).

Definition is_continuation (b : N) : bool := (128 <=? b) && (b <? 192).

Definition valid_code_point (v lowest : N) : bool :=
  (lowest <=? v) && (v <=? 1114111) && negb ((55296 <=? v) && (v <=? 57343)).

(** The first octet of an escape sequence. *)
Definition first_octet (b : N) : option pending :=
  if b <? 128 then Some Idle
  else if b <? 192 then None
  else if b <? 224 then Some (Cont 1 (b - 192) 128)
  else if b <? 240 then Some (Cont 2 (b - 224) 2048)
  else if b <? 248 then Some (Cont 3 (b - 240) 65536)
  else None.

Fixpoint decode_from (st : pending) (s : jsstring) : option jsstring :=
  match s with
  | [] => match st with Idle => Some [] | Cont _ _ _ => None end
  | c :: s1 =>
      if c =? 37 then
        match s1 with
        | h :: l :: s3 =>
            match hex_octet h l with
            | None => None
            | Some b =>
                match st with
                | Idle =>
                    match first_octet b with
                    | None => None
                    | Some Idle => option_map (cons b) (decode_from Idle s3)
                    | Some st' => decode_from st' s3
                    end
                | Cont need acc lowest =>
                    if is_continuation b then
                      let v := acc * 64 + (b - 128) in
                      match need with
                      | S (S k) => decode_from (Cont (S k) v lowest) s3
                      | _ =>
                          if valid_code_point v lowest
                          then option_map (app (utf16_of_code_point v))
                                          (decode_from Idle s3)
                          else None
                      end
                    else None
                end
            end
        | _ => None
        end
      else
        match st with
        | Idle => option_map (cons c) (decode_from Idle s1)
        | Cont _ _ _ => None
        end
  end.

Definition decodeURIComponent (s : jsstring) : completion jsstring :=
  match decode_from Idle s with
  | Some r => Normal r
  | None => Throw URIError
  end.

(* ================================================================== *)
(** ** JSON values and JSON.stringify

    The values [JSON.stringify] serialises without loss: [null], booleans,
    safe integers, strings, arrays, and plain objects as their own
    enumerable properties in insertion order.

    [JNum z] stands for the JavaScript number of value [z], for [z] a safe
    integer (at most [MAX_SAFE_INTEGER] in absolute value).  Every such [z]
    is the exact value of a Number, and Number::toString writes it in plain
    decimal.  Beyond that range an integer need not be a Number at all, a
    Number is written with the fewest digits that read back to it (2^60 as
    [1152921504606847000]), and from 10^21 on in exponent notation
    ([1e+21]); [wf_json] keeps numbers within the range. *)

(** [Number.MAX_SAFE_INTEGER], 2^53 - 1. *)
Definition MAX_SAFE_INTEGER : Z := 9007199254740991%Z.

Definition safe_integer (z : Z) : Prop :=
  (- MAX_SAFE_INTEGER <= z <= MAX_SAFE_INTEGER)%Z.

Inductive json : Type :=
| JNull
| JBool (b : bool)
| JNum (z : Z)
| JStr (s : jsstring)
| JArr (elements : list json)
| JObj (members : list (jsstring * json)).

Definition is_lead (c : code_unit) : bool := (55296 <=? c) && (c <? 56320).
Definition is_trail (c : code_unit) : bool := (56320 <=? c) && (c <? 57344).

Definition hexdigit (d : N) : code_unit := if d <? 10 then 48 + d else 87 + d.

(** UnicodeEscape: a backslash, [u] and four lower-case hexadecimal
    digits. *)
Definition unicode_escape (c : code_unit) : jsstring :=
  [92; 117; hexdigit (c / 4096); hexdigit ((c / 256) mod 16);
   hexdigit ((c / 16) mod 16); hexdigit (c mod 16)].

(** One code unit that is not a surrogate, as QuoteJSONString writes it. *)
Definition quote_unit (c : code_unit) : jsstring :=
  if c =? 8 then [92; 98]
  else if c =? 9 then [92; 116]
  else if c =? 10 then [92; 110]
  else if c =? 12 then [92; 102]
  else if c =? 13 then [92; 114]
  else if c =? 34 then [92; 34]
  else if c =? 92 then [92; 92]
  else if c <? 32 then unicode_escape c
  else [c].

(** QuoteJSONString without the enclosing quotes: it walks the code points
    of the string, so a surrogate pair is copied and a lone surrogate is
    escaped. *)
Fixpoint quote_body (s : jsstring) : jsstring :=
  match s with
  | [] => []
  | c :: s' =>
      if is_lead c then
        match s' with
        | d :: s'' =>
            if is_trail d then c :: d :: quote_body s''
            else unicode_escape c ++ quote_body s'
        | [] => unicode_escape c
        end
      else if is_trail c then unicode_escape c ++ quote_body s'
      else quote_unit c ++ quote_body s'
  end.

Definition QuoteJSONString (s : jsstring) : jsstring :=
  34 :: quote_body s ++ [34].

Fixpoint chars_of_uint (u : Decimal.uint) : jsstring :=
  match u with
  | Decimal.Nil => []
  | Decimal.D0 u' => 48 :: chars_of_uint u'
  | Decimal.D1 u' => 49 :: chars_of_uint u'
  | Decimal.D2 u' => 50 :: chars_of_uint u'
  | Decimal.D3 u' => 51 :: chars_of_uint u'
  | Decimal.D4 u' => 52 :: chars_of_uint u'
  | Decimal.D5 u' => 53 :: chars_of_uint u'
  | Decimal.D6 u' => 54 :: chars_of_uint u'
  | Decimal.D7 u' => 55 :: chars_of_uint u'
  | Decimal.D8 u' => 56 :: chars_of_uint u'
  | Decimal.D9 u' => 57 :: chars_of_uint u'
  end.

(** Number::toString for a safe integer: decimal digits, with a minus sign
    when negative. *)
Definition number_to_string (z : Z) : jsstring :=
  match Z.to_int z with
  | Decimal.Pos u => chars_of_uint u
  | Decimal.Neg u => 45 :: chars_of_uint u
  end.

(** SerializeJSONProperty with an empty gap. *)
Fixpoint JSON_stringify (v : json) : jsstring :=
  match v with
  | JNull => lit "null"
  | JBool true => lit "true"
  | JBool false => lit "false"
  | JNum z => number_to_string z
  | JStr s => QuoteJSONString s
  | JArr elements =>
      91 :: join [44] (List.map JSON_stringify elements) ++ [93]
  | JObj members =>
      123 :: join [44]
               (List.map (fun kv => QuoteJSONString (fst kv) ++ 58 :: JSON_stringify (snd kv))
                         members) ++ [125]
  end.

(* ================================================================== *)
(** ** TextEncoder.encode

    The string is first converted to scalar values (a lone surrogate becomes
    U+FFFD), then each scalar value is written in UTF-8. *)

Abbreviation byte := N (only parsing).

Definition utf8_of_code_point (v : N) : list byte :=
  if v <? 128 then [v]
  else if v <? 2048 then [192 + v / 64; 128 + v mod 64]
  else if v <? 65536 then
    [224 + v / 4096; 128 + (v / 64) mod 64; 128 + v mod 64]
  else
    [240 + v / 262144; 128 + (v / 4096) mod 64;
     128 + (v / 64) mod 64; 128 + v mod 64].

Definition code_point_of_pair (hi lo : code_unit) : N :=
  65536 + (hi - 55296) * 1024 + (lo - 56320).

Fixpoint TextEncoder_encode (s : jsstring) : list byte :=
  match s with
  | [] => []
  | c :: s' =>
      if is_lead c then
        match s' with
        | d :: s'' =>
            if is_trail d
            then utf8_of_code_point (code_point_of_pair c d) ++ TextEncoder_encode s''
            else utf8_of_code_point 65533 ++ TextEncoder_encode s'
        | [] => utf8_of_code_point 65533
        end
      else if is_trail c then utf8_of_code_point 65533 ++ TextEncoder_encode s'
      else utf8_of_code_point c ++ TextEncoder_encode s'
  end.

(* ================================================================== *)
(** ** base64FromByteArray (./base64) *)

(** The character of a six-bit value in the alphabet [A-Z a-z 0-9 + /]. *)
Definition base64_char (v : N) : code_unit :=
  if v <? 26 then 65 + v
  else if v <? 52 then 71 + v
  else if v <? 62 then v - 4
  else if v =? 62 then 43
  else 47.

(** Modelled from the spec: the module [./base64] is not part of the
    sources at hand; the spec says the UTF-8 bytes are base64-encoded, which
    is taken here as the standard alphabet with [=] padding. *)
Fixpoint base64FromByteArray (bytes : list byte) : jsstring :=
  match bytes with
  | [] => []
  | [a] =>
      [base64_char (a / 4); base64_char ((a mod 4) * 16); 61; 61]
  | [a; b] =>
      [base64_char (a / 4); base64_char ((a mod 4) * 16 + b / 16);
       base64_char ((b mod 16) * 4); 61]
  | a :: b :: c :: rest =>
      base64_char (a / 4) :: base64_char ((a mod 4) * 16 + b / 16)
      :: base64_char ((b mod 16) * 4 + c / 64) :: base64_char (c mod 64)
      :: base64FromByteArray rest
  end.

(* ================================================================== *)
(** ** getResizedUrl *)

Definition cloudfrontHostname : jsstring := lit "https://d2obrjcl8a4u8e.cloudfront.net".
Definition s3Hostname : jsstring := lit "ntmg-media.s3.us-west-1.amazonaws.com".
Definition s3BucketName : jsstring := lit "ntmg-media".

(** The object literal [{ bucket: s3BucketName, key, edits: imageEditRequest }]. *)
Definition imageRequest (key : jsstring) (imageEditRequest : json) : json :=
  JObj [(lit "bucket", JStr s3BucketName);
        (lit "key", JStr key);
        (lit "edits", imageEditRequest)].

Definition getResizedUrl (originalImageUrl : jsstring) (imageEditRequest : json)
  : completion jsstring :=
  match originalImageUrl with
  | [] => Normal []
  | _ :: _ =>
      if negb (includes s3Hostname originalImageUrl) then Normal originalImageUrl
      else
        let parts := split (s3Hostname ++ lit "/") originalImageUrl in
        if negb (List.length parts =? 2)%nat then Normal originalImageUrl
        else
          segments <- mapM decodeURIComponent
                        (split (lit "/") (nth 1 parts [])) ;;
          let key := join (lit "/") segments in
          Normal (cloudfrontHostname ++ lit "/" ++
                  base64FromByteArray
                    (TextEncoder_encode (JSON_stringify (imageRequest key imageEditRequest))))
  end.

(* ================================================================== *)
(** ** The DOM as this file uses it *)

(** A value assigned to an element property by [make]. *)
Inductive propval : Type :=
| PStr (s : jsstring)
| PBool (b : bool).

(** The two closures this file registers as event listeners. *)
Inductive handler : Type :=
| SelectFile   (* [() => { this.onSelectFile(); }] *)
| MediaReady.  (* the arrow function of [fillImage] *)

(** The nodes an element can have as children: the five fixed nodes of
    [this.nodes], and the media elements [fillImage] has created, by their
    position in the store [media]. *)
Inductive NodeRef : Type :=
| Wrapper
| ImageContainer
| FileButton
| ImagePreloader
| Caption
| Media (i : nat).

Record Element : Type := mkElement {
  tagName : jsstring;
  classList : list jsstring;
  props : list (jsstring * propval);
  backgroundImage : jsstring;        (* [style.backgroundImage] *)
  innerHTML : jsstring;
  placeholder : jsstring;            (* [dataset.placeholder] *)
  listeners : list (jsstring * handler);
  children : list NodeRef
}.

Definition with_classList (el : Element) (cl : list jsstring) : Element :=
  mkElement (tagName el) cl (props el) (backgroundImage el) (innerHTML el)
            (placeholder el) (listeners el) (children el).
Definition with_props (el : Element) (ps : list (jsstring * propval)) : Element :=
  mkElement (tagName el) (classList el) ps (backgroundImage el) (innerHTML el)
            (placeholder el) (listeners el) (children el).
Definition with_backgroundImage (el : Element) (v : jsstring) : Element :=
  mkElement (tagName el) (classList el) (props el) v (innerHTML el)
            (placeholder el) (listeners el) (children el).
Definition with_innerHTML (el : Element) (v : jsstring) : Element :=
  mkElement (tagName el) (classList el) (props el) (backgroundImage el) v
            (placeholder el) (listeners el) (children el).
Definition with_placeholder (el : Element) (v : jsstring) : Element :=
  mkElement (tagName el) (classList el) (props el) (backgroundImage el)
            (innerHTML el) v (listeners el) (children el).
Definition addEventListener (el : Element) (type : jsstring) (h : handler)
  : Element :=
  mkElement (tagName el) (classList el) (props el) (backgroundImage el)
            (innerHTML el) (placeholder el) (listeners el ++ [(type, h)])
            (children el).
Definition appendChild (el : Element) (child : NodeRef) : Element :=
  mkElement (tagName el) (classList el) (props el) (backgroundImage el)
            (innerHTML el) (placeholder el) (listeners el)
            (children el ++ [child]).

(** [document.createElement(tagName)]; the tag names of this file are
    [div], [IMG], [VIDEO] and [AUDIO]. *)
Definition createElement (tag : jsstring) : Element :=
  mkElement tag [] [] [] [] [] [] [].

Definition is_ascii_whitespace (c : code_unit) : bool :=
  (c =? 9) || (c =? 10) || (c =? 12) || (c =? 13) || (c =? 32).

(** The check every DOMTokenList method makes on a token. *)
Definition validate_token (token : jsstring) : completion unit :=
  match token with
  | [] => Throw SyntaxError
  | _ :: _ =>
      if existsb is_ascii_whitespace token then Throw InvalidCharacterError
      else Normal tt
  end.

Definition contains (cl : list jsstring) (token : jsstring) : bool :=
  existsb (str_eqb token) cl.

(** [classList.add(...tokens)]: all tokens are validated first. *)
Definition classList_add (tokens : list jsstring) (cl : list jsstring)
  : completion (list jsstring) :=
  _ <- mapM validate_token tokens ;;
  Normal (fold_left (fun acc t => if contains acc t then acc else acc ++ [t])
                    tokens cl).

(** [classList.toggle(token, force)] with [force] given. *)
Definition classList_toggle (token : jsstring) (force : bool)
           (cl : list jsstring) : completion (list jsstring) :=
  _ <- validate_token token ;;
  Normal (if contains cl token
          then if force then cl
               else filter (fun t => negb (str_eqb token t)) cl
          else if force then cl ++ [token] else cl).

Fixpoint lookup {V} (k : jsstring) (m : list (jsstring * V)) : option V :=
  match m with
  | [] => None
  | (k', v) :: m' => if str_eqb k k' then Some v else lookup k m'
  end.

(** [o[k] = v] on an object kept as its properties in insertion order. *)
Fixpoint assign {V} (k : jsstring) (v : V) (m : list (jsstring * V))
  : list (jsstring * V) :=
  match m with
  | [] => [(k, v)]
  | (k', v') :: m' =>
      if str_eqb k k' then (k', v) :: m' else (k', v') :: assign k v m'
  end.

(** The [classNames] argument of [make]. *)
Inductive ClassNames : Type :=
| NoNames                       (* the default, [null] *)
| Name (s : jsstring)
| Names (l : list jsstring).

Definition make (tag : jsstring) (classNames : ClassNames)
           (attributes : list (jsstring * propval)) : completion Element :=
  let el := createElement tag in
  cl <- match classNames with
        | Names l => classList_add l (classList el)
        | Name [] | NoNames => Normal (classList el)
        | Name s => classList_add [s] (classList el)
        end ;;
  let el := with_classList el cl in
  Normal (fold_left (fun e kv => with_props e (assign (fst kv) (snd kv) (props e)))
                    attributes el).

(* ================================================================== *)
(** ** class Ui *)

Record Api : Type := mkApi {
  styles_block : jsstring;
  styles_loader : jsstring;
  styles_input : jsstring;
  styles_button : jsstring;
  i18n_t : jsstring -> jsstring
}.

Record ImageConfig : Type := mkImageConfig {
  captionPlaceholder : jsstring;
  buttonContent : jsstring;          (* empty when not configured *)
  config_optimizeImages : bool
}.

Record Nodes : Type := mkNodes {
  wrapper : Element;
  imageContainer : Element;
  fileButton : Element;
  imageEl : option nat;               (* index into [media]; [undefined] at first *)
  imagePreloader : Element;
  caption : Element
}.

Record Ui : Type := mkUi {
  api : Api;
  config : ImageConfig;
  readOnly : bool;
  appendCaptionOnDemand : bool;
  nodes : Nodes;
  optimizeImages : bool;
  media : list Element                (* the elements [fillImage] created, oldest first *)
}.

Definition with_nodes (ui : Ui) (n : Nodes) : Ui :=
  mkUi (api ui) (config ui) (readOnly ui) (appendCaptionOnDemand ui) n
       (optimizeImages ui) (media ui).
Definition with_wrapper (ui : Ui) (el : Element) : Ui :=
  let n := nodes ui in
  with_nodes ui (mkNodes el (imageContainer n) (fileButton n) (imageEl n)
                         (imagePreloader n) (caption n)).
Definition with_imagePreloader (ui : Ui) (el : Element) : Ui :=
  let n := nodes ui in
  with_nodes ui (mkNodes (wrapper n) (imageContainer n) (fileButton n)
                         (imageEl n) el (caption n)).
Definition with_caption (ui : Ui) (el : Element) : Ui :=
  let n := nodes ui in
  with_nodes ui (mkNodes (wrapper n) (imageContainer n) (fileButton n)
                         (imageEl n) (imagePreloader n) el).
Definition with_appendCaptionOnDemand (ui : Ui) (b : bool) : Ui :=
  mkUi (api ui) (config ui) (readOnly ui) b (nodes ui) (optimizeImages ui)
       (media ui).

(** [this.nodes.imageEl], read through the store. *)
Definition current_imageEl (ui : Ui) : option Element :=
  match imageEl (nodes ui) with
  | Some i => nth_error (media ui) i
  | None => None
  end.

(** The getter [CSS]. *)
Record CssNames : Type := mkCss {
  css_baseClass : jsstring;
  css_loading : jsstring;
  css_input : jsstring;
  css_button : jsstring;
  css_wrapper : jsstring;
  css_imageContainer : jsstring;
  css_imagePreloader : jsstring;
  css_imageEl : jsstring;
  css_caption : jsstring
}.

Definition CSS (a : Api) : CssNames :=
  mkCss (styles_block a) (styles_loader a) (styles_input a) (styles_button a)
        (lit "image-tool") (lit "image-tool__image")
        (lit "image-tool__image-preloader") (lit "image-tool__image-picture")
        (lit "image-tool__caption").

(** The static getter [status]: the enum's members in declaration order. *)
Definition EMPTY : jsstring := lit "empty".
Definition UPLOADING : jsstring := lit "loading".
Definition FILLED : jsstring := lit "filled".

Definition Ui_status : list (jsstring * jsstring) :=
  [(lit "EMPTY", EMPTY); (lit "UPLOADING", UPLOADING); (lit "FILLED", FILLED)].

(** [for (const x of xs) body], where the body may throw. *)
Fixpoint for_each {S A} (xs : list A) (body : S -> A -> completion S) (s : S)
  : completion S :=
  match xs with
  | [] => Normal s
  | x :: xs' => s' <- body s x ;; for_each xs' body s'
  end.

(** The template [`${this.CSS.wrapper}--${name}`]. *)
Definition modifier (a : Api) (name : jsstring) : jsstring :=
  css_wrapper (CSS a) ++ lit "--" ++ name.

Definition toggleStatus (ui : Ui) (status : jsstring) : completion Ui :=
  for_each Ui_status
    (fun ui statusType =>
       cl <- classList_toggle (modifier (api ui) (snd statusType))
                              (str_eqb status (snd statusType))
                              (classList (wrapper (nodes ui))) ;;
       Normal (with_wrapper ui (with_classList (wrapper (nodes ui)) cl)))
    ui.

Definition applyTune (ui : Ui) (tuneName : jsstring) (status : bool)
  : completion Ui :=
  cl <- classList_toggle (modifier (api ui) tuneName) status
                         (classList (wrapper (nodes ui))) ;;
  Normal (with_wrapper ui (with_classList (wrapper (nodes ui)) cl)).

(** *** render *)

(** Saved tool data: [toolData.file] is any JSON value, or absent. *)
Record ImageToolData : Type := mkToolData {
  file : option json;
  toolData_caption : jsstring
}.

(** ToBoolean. *)
Definition truthy (v : option json) : bool :=
  match v with
  | None | Some JNull | Some (JBool false) | Some (JNum 0%Z) | Some (JStr []) => false
  | Some _ => true
  end.

Definition indices (n : nat) : list jsstring :=
  List.map (fun i => number_to_string (Z.of_nat i)) (seq 0 n).

(** [Object.keys(v)] for a value that is neither [undefined] nor [null]:
    the own enumerable string keys of the value as an object.  (On
    [undefined] and [null] the built-in throws; [render] never gets there.) *)
Definition Object_keys (v : option json) : list jsstring :=
  match v with
  | Some (JObj members) => List.map fst members
  | Some (JArr elements) => indices (List.length elements)
  | Some (JStr s) => indices (List.length s)
  | _ => []
  end.

Definition render (ui : Ui) (toolData : ImageToolData)
  : completion (Ui * Element) :=
  ui' <- (if negb (truthy (file toolData))
             || (List.length (Object_keys (file toolData)) =? 0)%nat
          then toggleStatus ui EMPTY
          else toggleStatus ui UPLOADING) ;;
  Normal (ui', wrapper (nodes ui')).

(** *** The preloader *)

Definition showPreloader (ui : Ui) (src : jsstring) : completion Ui :=
  let ui := with_imagePreloader ui
              (with_backgroundImage (imagePreloader (nodes ui))
                                    (lit "url(" ++ src ++ lit ")")) in
  toggleStatus ui UPLOADING.

Definition hidePreloader (ui : Ui) : completion Ui :=
  let ui := with_imagePreloader ui
              (with_backgroundImage (imagePreloader (nodes ui)) []) in
  toggleStatus ui EMPTY.

(** *** fillImage *)

(** The object literal [{ resize: { width, fit: 'cover' } }]. *)
Definition resize_request (width : Z) : json :=
  JObj [(lit "resize", JObj [(lit "width", JNum width);
                              (lit "fit", JStr (lit "cover"))])].

Definition srcset_widths : list Z := [640; 750; 828; 1080]%Z.

(** The callback of [.map]: [`${resizedUrl} ${width}w`]. *)
Definition srcset_candidate (url : jsstring) (width : Z) : completion jsstring :=
  resizedUrl <- getResizedUrl url (resize_request width) ;;
  Normal (resizedUrl ++ lit " " ++ number_to_string width ++ lit "w").

Definition fillImage (ui : Ui) (url : jsstring) : completion Ui :=
  let tag := lit "IMG" in
  let tag := if endsWith (lit ".mp4") url then lit "VIDEO" else tag in
  let tag := if endsWith (lit ".mp3") url then lit "AUDIO" else tag in
  let attributes := [(lit "src", PStr url)] in
  attributes <-
    (if optimizeImages ui then
       candidates <- mapM (srcset_candidate url) srcset_widths ;;
       let srcSet := join (lit ", ") candidates in
       Normal (assign (lit "sizes") (PStr (lit "100vw"))
                 (assign (lit "srcset") (PStr srcSet) attributes))
     else Normal attributes) ;;
  let eventName := lit "load" in
  let '(attributes, eventName) :=
    if str_eqb tag (lit "VIDEO")
    then (assign (lit "controls") (PBool true)
            (assign (lit "playsinline") (PBool true) attributes),
          lit "loadeddata")
    else (attributes, eventName) in
  let '(attributes, eventName) :=
    if str_eqb tag (lit "AUDIO")
    then (assign (lit "controls") (PBool true) attributes, lit "loadeddata")
    else (attributes, eventName) in
  el <- make tag (Name (css_imageEl (CSS (api ui)))) attributes ;;
  let el := addEventListener el eventName MediaReady in
  let n := nodes ui in
  let i := List.length (media ui) in
  Normal (mkUi (api ui) (config ui) (readOnly ui) (appendCaptionOnDemand ui)
               (mkNodes (wrapper n) (appendChild (imageContainer n) (Media i))
                        (fileButton n) (Some i) (imagePreloader n) (caption n))
               (optimizeImages ui) (media ui ++ [el])).

(** *** fillCaption *)

Definition fillCaption (ui : Ui) (text : jsstring) : Ui :=
  match text with
  | [] => ui
  | _ :: _ =>
      let ui :=
        if appendCaptionOnDemand ui
        then with_appendCaptionOnDemand
               (with_wrapper ui (appendChild (wrapper (nodes ui)) Caption)) false
        else ui in
      with_caption ui (with_innerHTML (caption (nodes ui)) text)
  end.

(** *** Events *)

(** The body of a registered listener.  [onSelectFile] belongs to the host
    and leaves this object alone. *)
Definition run_handler (h : handler) (ui : Ui) : completion Ui :=
  match h with
  | SelectFile => Normal ui
  | MediaReady =>
      ui <- toggleStatus ui FILLED ;;
      Normal (with_imagePreloader ui
                (with_backgroundImage (imagePreloader (nodes ui)) []))
  end.

(** An event of the given type fired at [el]: its listeners for that type
    run in registration order. *)
Definition dispatchEvent (el : Element) (type : jsstring) (ui : Ui)
  : completion Ui :=
  for_each (filter (fun l => str_eqb type (fst l)) (listeners el))
           (fun ui l => run_handler (snd l) ui) ui.

(** *** The constructor *)

Definition createFileButton (a : Api) (c : ImageConfig) (buttonIcon : jsstring)
  : completion Element :=
  button <- make (lit "div") (Names [css_button (CSS a)]) [] ;;
  let content :=
    match buttonContent c with
    | [] => buttonIcon ++ lit " " ++ i18n_t a (lit "Select an Image")
    | _ :: _ => buttonContent c
    end in
  Normal (addEventListener (with_innerHTML button content) (lit "click") SelectFile).

Definition new_Ui (a : Api) (c : ImageConfig) (ro : bool) (buttonIcon : jsstring)
  : completion Ui :=
  let css := CSS a in
  w <- make (lit "div") (Names [css_baseClass css; css_wrapper css]) [] ;;
  ic <- make (lit "div") (Names [css_imageContainer css]) [] ;;
  fb <- createFileButton a c buttonIcon ;;
  ip <- make (lit "div") (Name (css_imagePreloader css)) [] ;;
  cap <- make (lit "div") (Names [css_input css; css_caption css])
              [(lit "contentEditable", PBool (negb ro))] ;;
  let cap := with_placeholder cap (captionPlaceholder c) in
  let ic := appendChild ic ImagePreloader in
  let w := appendChild w ImageContainer in
  let w := if negb ro then appendChild w Caption else w in
  let w := appendChild w FileButton in
  Normal (mkUi a c ro ro (mkNodes w ic fb None ip cap)
               (config_optimizeImages c) []).

(** *** Reading the status off the wrapper *)

(** The values of the enum [Ui.status]. *)
Definition statuses : list jsstring := List.map snd Ui_status.

(** The marker of the status [name] is among the wrapper's classes. *)
Definition active (ui : Ui) (name : jsstring) : bool :=
  contains (classList (wrapper (nodes ui))) (modifier (api ui) name).

(** The tag [fillImage] settles on, after both of its tests. *)
Definition media_tag (url : jsstring) : jsstring :=
  if endsWith (lit ".mp3") url then lit "AUDIO"
  else if endsWith (lit ".mp4") url then lit "VIDEO"
  else lit "IMG".

(* ================================================================== *)
(** ** Reading a resized URL back

    The specification states what [getResizedUrl] returns by how it
    decodes: as base64 (RFC 4648, with padding), then UTF-8 (strict: no
    overlong forms, no surrogates, nothing above U+10FFFF), then JSON
    (ECMA-404).  These decoders are the yardstick; nothing in [ui.js] calls
    them. *)

Definition base64_value (c : code_unit) : option N :=
  if (65 <=? c) && (c <=? 90) then Some (c - 65)
  else if (97 <=? c) && (c <=? 122) then Some (c - 71)
  else if (48 <=? c) && (c <=? 57) then Some (c + 4)
  else if c =? 43 then Some 62
  else if c =? 47 then Some 63
  else None.

Definition is_nil {A} (l : list A) : bool :=
  match l with [] => true | _ :: _ => false end.

Fixpoint base64_decode (s : jsstring) : option (list byte) :=
  match s with
  | [] => Some []
  | c1 :: c2 :: c3 :: c4 :: rest =>
      match base64_value c1, base64_value c2 with
      | Some v1, Some v2 =>
          if c3 =? 61 then
            if (c4 =? 61) && is_nil rest && (v2 mod 16 =? 0)
            then Some [v1 * 4 + v2 / 16] else None
          else
            match base64_value c3 with
            | None => None
            | Some v3 =>
                if c4 =? 61 then
                  if is_nil rest && (v3 mod 4 =? 0)
                  then Some [v1 * 4 + v2 / 16; (v2 mod 16) * 16 + v3 / 4]
                  else None
                else
                  match base64_value c4 with
                  | None => None
                  | Some v4 =>
                      option_map
                        (fun bs => v1 * 4 + v2 / 16
                                   :: (v2 mod 16) * 16 + v3 / 4
                                   :: (v3 mod 4) * 64 + v4 :: bs)
                        (base64_decode rest)
                  end
            end
      | _, _ => None
      end
  | _ => None
  end.

Fixpoint utf8_decode (bytes : list byte) : option jsstring :=
  match bytes with
  | [] => Some []
  | b0 :: r0 =>
      if b0 <? 128 then option_map (cons b0) (utf8_decode r0)
      else if b0 <? 192 then None
      else if b0 <? 224 then
        match r0 with
        | b1 :: r1 =>
            let v := (b0 - 192) * 64 + (b1 - 128) in
            if is_continuation b1 && valid_code_point v 128
            then option_map (app (utf16_of_code_point v)) (utf8_decode r1)
            else None
        | _ => None
        end
      else if b0 <? 240 then
        match r0 with
        | b1 :: b2 :: r2 =>
            let v := ((b0 - 224) * 64 + (b1 - 128)) * 64 + (b2 - 128) in
            if is_continuation b1 && is_continuation b2 && valid_code_point v 2048
            then option_map (app (utf16_of_code_point v)) (utf8_decode r2)
            else None
        | _ => None
        end
      else if b0 <? 248 then
        match r0 with
        | b1 :: b2 :: b3 :: r3 =>
            let v := (((b0 - 240) * 64 + (b1 - 128)) * 64 + (b2 - 128)) * 64
                     + (b3 - 128) in
            if is_continuation b1 && is_continuation b2 && is_continuation b3
               && valid_code_point v 65536
            then option_map (app (utf16_of_code_point v)) (utf8_decode r3)
            else None
        | _ => None
        end
      else None
  end.

(** *** JSON.parse, for texts whose numbers are integers *)

Definition is_ws (c : code_unit) : bool :=
  (c =? 32) || (c =? 9) || (c =? 10) || (c =? 13).

Fixpoint skip_ws (s : jsstring) : jsstring :=
  match s with
  | [] => []
  | c :: s' => if is_ws c then skip_ws s' else s
  end.

Definition cons_parsed {A} (c : A) (r : option (list A * jsstring))
  : option (list A * jsstring) :=
  match r with
  | Some (cs, rest) => Some (c :: cs, rest)
  | None => None
  end.

(** The character after a backslash, other than [u]. *)
Definition unescape (e : code_unit) : option code_unit :=
  if e =? 34 then Some 34
  else if e =? 92 then Some 92
  else if e =? 47 then Some 47
  else if e =? 98 then Some 8
  else if e =? 102 then Some 12
  else if e =? 110 then Some 10
  else if e =? 114 then Some 13
  else if e =? 116 then Some 9
  else None.

(** A string after its opening quote, up to and including the closing one. *)
Fixpoint parse_string_body (s : jsstring) : option (jsstring * jsstring) :=
  match s with
  | [] => None
  | c :: s1 =>
      if c =? 34 then Some ([], s1)
      else if c =? 92 then
        match s1 with
        | [] => None
        | e :: s2 =>
            if e =? 117 then
              match s2 with
              | h1 :: h2 :: h3 :: h4 :: s6 =>
                  match hex_octet h1 h2, hex_octet h3 h4 with
                  | Some hi, Some lo => cons_parsed (256 * hi + lo) (parse_string_body s6)
                  | _, _ => None
                  end
              | _ => None
              end
            else
              match unescape e with
              | Some c' => cons_parsed c' (parse_string_body s2)
              | None => None
              end
        end
      else if c <? 32 then None
      else cons_parsed c (parse_string_body s1)
  end.

Definition is_digit (c : code_unit) : bool := (48 <=? c) && (c <=? 57).

Definition push_digit (c : code_unit) (u : Decimal.uint) : Decimal.uint :=
  if c =? 48 then Decimal.D0 u
  else if c =? 49 then Decimal.D1 u
  else if c =? 50 then Decimal.D2 u
  else if c =? 51 then Decimal.D3 u
  else if c =? 52 then Decimal.D4 u
  else if c =? 53 then Decimal.D5 u
  else if c =? 54 then Decimal.D6 u
  else if c =? 55 then Decimal.D7 u
  else if c =? 56 then Decimal.D8 u
  else Decimal.D9 u.

(** The longest run of digits at the head of [s], and what follows it. *)
Fixpoint read_digits (s : jsstring) : Decimal.uint * jsstring :=
  match s with
  | [] => (Decimal.Nil, [])
  | c :: s' =>
      if is_digit c
      then let '(u, rest) := read_digits s' in (push_digit c u, rest)
      else (Decimal.Nil, s)
  end.

Definition continues_number (rest : jsstring) : bool :=
  match rest with
  | c :: _ => (c =? 46) || (c =? 101) || (c =? 69)
  | [] => false
  end.

(** An integer without leading zeros; a fraction or an exponent is outside
    the fragment, and so is the negative zero. *)
Definition parse_number (s : jsstring) : option (Z * jsstring) :=
  let '(negative, digits) :=
    match s with
    | c :: s' => if c =? 45 then (true, s') else (false, s)
    | [] => (false, s)
    end in
  let '(u, rest) := read_digits digits in
  if continues_number rest then None
  else
    match u with
    | Decimal.Nil => None
    | Decimal.D0 Decimal.Nil =>
        if negative then None else Some (0%Z, rest)
    | Decimal.D0 _ => None
    | _ => Some (Z.of_int (if negative then Decimal.Neg u else Decimal.Pos u), rest)
    end.

Definition parse_literal (word : jsstring) (v : json) (s : jsstring)
  : option (json * jsstring) :=
  if startsWith word s then Some (v, skipn (List.length word) s) else None.

Definition map_parsed {A B} (f : A -> B) (r : option (A * jsstring))
  : option (B * jsstring) :=
  match r with
  | Some (a, rest) => Some (f a, rest)
  | None => None
  end.

(** Values, array elements after the opening bracket, and object members
    after the opening brace.  Every call uses up one unit of [fuel]; a
    serialised value of [n] code units is read back with [2 * n]. *)
Fixpoint parse_value (fuel : nat) (s : jsstring) {struct fuel}
  : option (json * jsstring) :=
  match fuel with
  | O => None
  | S f =>
      match skip_ws s with
      | [] => None
      | c :: r =>
          if c =? 34 then map_parsed JStr (parse_string_body r)
          else if c =? 123 then
            match skip_ws r with
            | [] => None
            | c' :: r' =>
                if c' =? 125 then Some (JObj [], r')
                else map_parsed JObj (parse_members f (c' :: r'))
            end
          else if c =? 91 then
            match skip_ws r with
            | [] => None
            | c' :: r' =>
                if c' =? 93 then Some (JArr [], r')
                else map_parsed JArr (parse_elements f (c' :: r'))
            end
          else if c =? 110 then parse_literal (lit "null") JNull (c :: r)
          else if c =? 116 then parse_literal (lit "true") (JBool true) (c :: r)
          else if c =? 102 then parse_literal (lit "false") (JBool false) (c :: r)
          else map_parsed JNum (parse_number (c :: r))
      end
  end
with parse_elements (fuel : nat) (s : jsstring) {struct fuel}
  : option (list json * jsstring) :=
  match fuel with
  | O => None
  | S f =>
      match parse_value f s with
      | None => None
      | Some (v, r) =>
          match skip_ws r with
          | [] => None
          | c :: r' =>
              if c =? 44 then cons_parsed v (parse_elements f r')
              else if c =? 93 then Some ([v], r')
              else None
          end
      end
  end
with parse_members (fuel : nat) (s : jsstring) {struct fuel}
  : option (list (jsstring * json) * jsstring) :=
  match fuel with
  | O => None
  | S f =>
      match skip_ws s with
      | [] => None
      | q :: r =>
          if q =? 34 then
            match parse_string_body r with
            | None => None
            | Some (k, r1) =>
                match skip_ws r1 with
                | [] => None
                | colon :: r2 =>
                    if colon =? 58 then
                      match parse_value f r2 with
                      | None => None
                      | Some (v, r3) =>
                          match skip_ws r3 with
                          | [] => None
                          | c :: r4 =>
                              if c =? 44 then cons_parsed (k, v) (parse_members f r4)
                              else if c =? 125 then Some ([(k, v)], r4)
                              else None
                          end
                      end
                    else None
                end
            end
          else None
      end
  end.

Definition JSON_parse (text : jsstring) : option json :=
  match parse_value (2 * List.length text) text with
  | Some (v, rest) => if is_nil (skip_ws rest) then Some v else None
  | None => None
  end.

(** Every string of the value is a sequence of 16-bit code units, and every
    number is a safe integer. *)
Fixpoint wf_json (v : json) : Prop :=
  match v with
  | JNull | JBool _ => True
  | JNum z => safe_integer z
  | JStr s => wf_string s
  | JArr elements =>
      (fix all (l : list json) : Prop :=
         match l with
         | [] => True
         | e :: l' => wf_json e /\ all l'
         end) elements
  | JObj members =>
      (fix all (l : list (jsstring * json)) : Prop :=
         match l with
         | [] => True
         | (k, e) :: l' => wf_string k /\ wf_json e /\ all l'
         end) members
  end.

(** The three decodings in a row: base64, then UTF-8, then JSON. *)
Definition decode_request (b64 : jsstring) : option json :=
  match base64_decode b64 with
  | None => None
  | Some bytes =>
      match utf8_decode bytes with
      | None => None
      | Some text => JSON_parse text
      end
  end.



(* ================================================================== *)
(** ** Well-formed UTF-16

    Every code unit is below 65536 and every surrogate is half of a pair:
    the strings [TextEncoder.encode] writes without substituting U+FFFD. *)

Fixpoint well_formed (s : jsstring) : bool :=
  match s with
  | [] => true
  | c :: s' =>
      if is_lead c then
        match s' with
        | d :: s'' => is_trail d && well_formed s''
        | [] => false
        end
      else negb (is_trail c) && (c <? 65536) && well_formed s'
  end.

(* ================================================================== *)
(** ** Sample inputs *)

(** A storage URL whose last path segment is double-encoded. *)
Definition double_encoded_url : jsstring :=
  lit "https://ntmg-media.s3.us-west-1.amazonaws.com/photos/a%2520b.png".

(** A storage URL whose last path segment is not a valid percent-encoding. *)
Definition malformed_escape_url : jsstring :=
  lit "https://ntmg-media.s3.us-west-1.amazonaws.com/photos/100%.png".


(** A URL that does not mention the storage host. *)
Definition unrelated_url : jsstring := lit "https://example.com/a.png".

(** A URL in which [<storage-host>/] occurs twice. *)
Definition twice_url : jsstring :=
  lit "https://ntmg-media.s3.us-west-1.amazonaws.com/ntmg-media.s3.us-west-1.amazonaws.com/a.png".

(** A storage URL of a video with a malformed percent-encoding. *)
Definition malformed_escape_video : jsstring :=
  lit "https://ntmg-media.s3.us-west-1.amazonaws.com/clips/100%.mp4".

(** A video on another host. *)
Definition video_url : jsstring := lit "https://example.com/clip.mp4".

(** The host's side of a block: Editor.js style names and an identity
    translation. *)
Definition sample_api : Api :=
  mkApi (lit "cdx-block") (lit "cdx-loader") (lit "cdx-input")
        (lit "cdx-button") (fun s => s).

Definition sample_config (optimize : bool) : ImageConfig :=
  mkImageConfig (lit "Caption") [] optimize.

(** The object [new Ui({...})] returns for the sample host, writable. *)
Definition sample_ui (optimize : bool) : Ui :=
  match new_Ui sample_api (sample_config optimize) false (lit "<svg/>") with
  | Normal ui => ui
  | Throw _ =>
      let div := createElement (lit "div") in
      mkUi sample_api (sample_config optimize) false false
           (mkNodes div div div None div div) optimize []
  end.

(* ================================================================== *)
(** ** Notions used in the proofs *)

(** [s] does not start with a code unit that would extend a number. *)
Definition ends_number (s : jsstring) : Prop :=
  match s with
  | [] => True
  | c :: _ => is_digit c = false /\ c <> 46 /\ c <> 101 /\ c <> 69
  end.

(** What may follow a value inside a text: nothing, a comma, or a closing
    bracket or brace. *)
Definition ends_value (rest : jsstring) : Prop :=
  match rest with
  | [] => True
  | c :: _ => c = 44 \/ c = 93 \/ c = 125
  end.

(** One member of an object, as [JSON_stringify] writes it. *)
Definition member_text (kv : jsstring * json) : jsstring :=
  QuoteJSONString (fst kv) ++ 58 :: JSON_stringify (snd kv).

(** The first code unit of a serialised value opens a value. *)
Definition opens_value (c : code_unit) : Prop :=
  is_ws c = false /\ c <> 93 /\ c <> 125.

(** A serialised value reads back as the value, given fuel for twice its
    length, whatever follows it in the text. *)
Definition reads_back (v : json) : Prop :=
  forall (f : nat) (rest : jsstring),
    ends_value rest ->
    (2 * List.length (JSON_stringify v) <= f)%nat ->
    parse_value f (JSON_stringify v ++ rest) = Some (v, rest).

(** Linear arithmetic over [N] with division and remainder by constants. *)
Ltac dlia := zify; Z.to_euclidean_division_equations; lia.

(** Settles the comparisons of the goal that arithmetic decides. *)
Ltac decide_tests :=
  repeat match goal with
    | |- context [?a <? ?b] =>
        first [ replace (a <? b) with true by (symmetry; apply N.ltb_lt; dlia)
              | replace (a <? b) with false by (symmetry; apply N.ltb_ge; dlia) ]
    | |- context [?a <=? ?b] =>
        first [ replace (a <=? b) with true by (symmetry; apply N.leb_le; dlia)
              | replace (a <=? b) with false by (symmetry; apply N.leb_gt; dlia) ]
    | |- context [?a =? ?b] =>
        first [ replace (a =? b) with true by (symmetry; apply N.eqb_eq; dlia)
              | replace (a =? b) with false by (symmetry; apply N.eqb_neq; dlia) ]
    end.

(** Code units below the surrogate range. *)
Definition plain (s : jsstring) : Prop := Forall (fun c => c < 55296) s.

(** The class list [classList.toggle(token, force)] leaves behind. *)
Definition toggled (token : jsstring) (force : bool) (cl : list jsstring)
  : list jsstring :=
  if contains cl token
  then if force then cl else filter (fun t => negb (str_eqb token t)) cl
  else if force then cl ++ [token] else cl.

(** The attributes [fillImage] adds for playback. *)
Definition playback (tag : jsstring) : list (jsstring * propval) :=
  if str_eqb tag (lit "VIDEO")
  then [(lit "playsinline", PBool true); (lit "controls", PBool true)]
  else if str_eqb tag (lit "AUDIO") then [(lit "controls", PBool true)]
  else [].

(** The event [fillImage] listens for. *)
Definition ready_event (tag : jsstring) : jsstring :=
  if str_eqb tag (lit "VIDEO") || str_eqb tag (lit "AUDIO")
  then lit "loadeddata" else lit "load".

(** The element [fillImage] composes, given what the responsive-image block
    added to its attributes. *)
Definition media_element (url : jsstring) (responsive : list (jsstring * propval))
  : Element :=
  mkElement (media_tag url) [lit "image-tool__image-picture"]
            ((lit "src", PStr url) :: responsive ++ playback (media_tag url))
            [] [] [] [(ready_event (media_tag url), MediaReady)] [].

(** [ui] with a new media element stored, made current and mounted. *)
Definition mount (ui : Ui) (el : Element) : Ui :=
  let n := nodes ui in
  mkUi (api ui) (config ui) (readOnly ui) (appendCaptionOnDemand ui)
       (mkNodes (wrapper n)
                (appendChild (imageContainer n) (Media (List.length (media ui))))
                (fileButton n) (Some (List.length (media ui)))
                (imagePreloader n) (caption n))
       (optimizeImages ui) (media ui ++ [el]).

(* ================================================================== *)
(** * Properties *)

Example split_demo :
  split (lit "b/") (lit "ab/cb/") = [lit "a"; lit "c"; lit ""].
Proof. reflexivity. Qed.

Example decode_demo :
  decodeURIComponent (lit "a%2520b%E2%82%AC%F0%9F%98%80")
  = Normal (lit "a%20b" ++ [8364; 55357; 56832]).
Proof. vm_compute. reflexivity. Qed.

Example decode_bad :
  forallb (fun s => negb (returns (decodeURIComponent s)))
          [lit "%"; lit "100%"; lit "%zz"; lit "%C3"; lit "%C0%80";
           lit "%ED%A0%80"; lit "%80"; lit "%F8%80%80%80"]
  = true.
Proof. vm_compute. reflexivity. Qed.

(** The key of this URL is [a%20b/] followed by a euro sign and [.png]. *)
Example getResizedUrl_demo :
  getResizedUrl
    (lit "https://ntmg-media.s3.us-west-1.amazonaws.com/a%2520b/%E2%82%AC.png")
    (resize_request 640)
  = Normal (lit "https://d2obrjcl8a4u8e.cloudfront.net/eyJidWNrZXQiOiJudG1nLW1lZGlhIiwia2V5IjoiYSUyMGIv4oKsLnBuZyIsImVkaXRzIjp7InJlc2l6ZSI6eyJ3aWR0aCI6NjQwLCJmaXQiOiJjb3ZlciJ9fX0=").
Proof. vm_compute. reflexivity. Qed.

(* ================================================================== *)
(** ** Strings *)

Lemma str_eqb_eq (a b : jsstring) : str_eqb a b = true <-> a = b.
Proof.
  revert b; induction a as [|x a IH]; intros [|y b]; simpl;
    try (split; [discriminate | congruence]); try tauto.
  rewrite andb_true_iff, N.eqb_eq, IH. split.
  - intros [-> ->]; reflexivity.
  - intros E; injection E; auto.
Qed.

Lemma str_eqb_refl (a : jsstring) : str_eqb a a = true.
Proof. apply str_eqb_eq; reflexivity. Qed.

Lemma str_eqb_neq (a b : jsstring) : a <> b -> str_eqb a b = false.
Proof.
  intros H. destruct (str_eqb a b) eqn:E; [|reflexivity].
  apply str_eqb_eq in E. contradiction.
Qed.

Lemma startsWith_app_l (a b s : jsstring) :
  startsWith (a ++ b) s = true -> startsWith a s = true.
Proof.
  revert s; induction a as [|x a IH]; intros s; simpl; [reflexivity|].
  destruct s as [|y s]; [discriminate|].
  rewrite !andb_true_iff. intros [E H]. split; [exact E | apply IH, H].
Qed.

Lemma includes_app_l (a b s : jsstring) :
  includes (a ++ b) s = true -> includes a s = true.
Proof.
  induction s as [|c s IH]; simpl; rewrite !orb_true_iff.
  - intros [H|H]; [left; apply (startsWith_app_l a b), H | discriminate].
  - intros [H|H]; [left; apply (startsWith_app_l a b), H | right; apply IH, H].
Qed.

(** Without an occurrence of the separator there is nothing to split. *)
Lemma split_from_absent (sep s : jsstring) :
  includes sep s = false -> split_from sep 0 s = [s].
Proof.
  induction s as [|c s IH]; simpl; [reflexivity|].
  rewrite orb_false_iff. intros [H1 H2].
  change (match sep with [] => true | x :: n' => (x =? c) && startsWith n' s end)
    with (startsWith sep (c :: s)).
  rewrite H1, (IH H2). reflexivity.
Qed.

Lemma split_absent (sep s : jsstring) :
  sep <> [] -> includes sep s = false -> split sep s = [s].
Proof.
  intros Hsep H. destruct sep as [|x sep]; [contradiction|].
  apply split_from_absent, H.
Qed.

(** An induction that follows functions which consume one or two elements
    at a time. *)
Lemma list_pair_ind {A} (P : list A -> Prop) :
  P [] ->
  (forall a, P [a]) ->
  (forall a b l, P l -> P (b :: l) -> P (a :: b :: l)) ->
  forall l, P l.
Proof.
  intros H0 H1 H2.
  assert (H : forall l, P l /\ forall a, P (a :: l)).
  { induction l as [|b l [IHl IHc]]; split; auto. }
  intros l; apply H.
Qed.

(* ================================================================== *)
(** ** JSON strings read back *)

Lemma hexval_hexdigit (d : N) : d < 16 -> hexval (hexdigit d) = Some d.
Proof.
  intros H. unfold hexval, hexdigit.
  destruct (d <? 10) eqn:E.
  - apply N.ltb_lt in E.
    replace ((48 <=? 48 + d) && (48 + d <=? 57)) with true
      by (symmetry; apply andb_true_iff; split; apply N.leb_le; lia).
    f_equal; lia.
  - apply N.ltb_ge in E.
    replace ((48 <=? 87 + d) && (87 + d <=? 57)) with false
      by (symmetry; apply andb_false_iff; right; apply N.leb_gt; lia).
    replace ((65 <=? 87 + d) && (87 + d <=? 70)) with false
      by (symmetry; apply andb_false_iff; right; apply N.leb_gt; lia).
    replace ((97 <=? 87 + d) && (87 + d <=? 102)) with true
      by (symmetry; apply andb_true_iff; split; apply N.leb_le; lia).
    f_equal; lia.
Qed.

Lemma hex_octet_digits (b : N) :
  b < 256 -> hex_octet (hexdigit (b / 16)) (hexdigit (b mod 16)) = Some b.
Proof.
  intros H. unfold hex_octet.
  rewrite !hexval_hexdigit.
  - f_equal. pose proof (N.div_mod b 16). lia.
  - apply N.mod_lt; lia.
  - apply N.Div0.div_lt_upper_bound; lia.
Qed.

Lemma parse_unicode_escape (c : code_unit) (t : jsstring) :
  c < 65536 ->
  parse_string_body (unicode_escape c ++ t) = cons_parsed c (parse_string_body t).
Proof.
  intros H. unfold unicode_escape.
  change (parse_string_body
            ([92; 117; hexdigit (c / 4096); hexdigit ((c / 256) mod 16);
              hexdigit ((c / 16) mod 16); hexdigit (c mod 16)] ++ t))
    with (match hex_octet (hexdigit (c / 4096)) (hexdigit ((c / 256) mod 16)),
                hex_octet (hexdigit ((c / 16) mod 16)) (hexdigit (c mod 16)) with
          | Some hi, Some lo => cons_parsed (256 * hi + lo) (parse_string_body t)
          | _, _ => None
          end).
  replace (c / 4096) with ((c / 256) / 16) by (rewrite N.Div0.div_div; reflexivity).
  replace (c mod 16) with ((c mod 256) mod 16).
  2:{ change 256 with (16 * 16). rewrite N.Div0.mod_mul_r.
      rewrite N.mul_comm, N.Div0.mod_add. apply N.Div0.mod_mod. }
  replace ((c / 16) mod 16) with ((c mod 256) / 16).
  2:{ change 256 with (16 * 16). rewrite N.Div0.mod_mul_r.
      rewrite N.mul_comm, N.div_add by lia.
      rewrite (N.div_small (c mod 16)) by (apply N.mod_lt; lia). reflexivity. }
  rewrite !hex_octet_digits.
  - replace (256 * (c / 256) + c mod 256) with c
      by (pose proof (N.div_mod c 256); lia).
    reflexivity.
  - apply N.mod_lt; lia.
  - apply N.Div0.div_lt_upper_bound; lia.
Qed.

Lemma parse_raw_unit (c : code_unit) (t : jsstring) :
  32 <= c -> c <> 34 -> c <> 92 ->
  parse_string_body (c :: t) = cons_parsed c (parse_string_body t).
Proof.
  intros H1 H2 H3. simpl.
  apply N.eqb_neq in H2, H3. rewrite H2, H3.
  replace (c <? 32) with false by (symmetry; apply N.ltb_ge; exact H1).
  reflexivity.
Qed.

Lemma parse_quote_unit (c : code_unit) (t : jsstring) :
  parse_string_body (quote_unit c ++ t) = cons_parsed c (parse_string_body t).
Proof.
  unfold quote_unit.
  repeat match goal with
         | |- context [if ?c =? ?k then _ else _] =>
             destruct (N.eqb_spec c k); [subst; reflexivity|]
         end.
  destruct (N.ltb_spec c 32).
  - apply parse_unicode_escape; lia.
  - apply parse_raw_unit; assumption.
Qed.

Lemma surrogate_is_raw (c : code_unit) :
  is_lead c = true \/ is_trail c = true ->
  32 <= c /\ c <> 34 /\ c <> 92 /\ c < 65536.
Proof.
  unfold is_lead, is_trail. rewrite !andb_true_iff, !N.leb_le, !N.ltb_lt. lia.
Qed.

Lemma parse_surrogate (c : code_unit) (t : jsstring) :
  is_lead c = true \/ is_trail c = true ->
  parse_string_body (c :: t) = cons_parsed c (parse_string_body t).
Proof.
  intros H. apply surrogate_is_raw in H. apply parse_raw_unit; tauto.
Qed.

Lemma parse_escaped_surrogate (c : code_unit) (t : jsstring) :
  is_lead c = true \/ is_trail c = true ->
  parse_string_body (unicode_escape c ++ t) = cons_parsed c (parse_string_body t).
Proof.
  intros H. apply surrogate_is_raw in H. apply parse_unicode_escape; tauto.
Qed.

(** What QuoteJSONString writes between the quotes reads back as the
    string, whatever follows the closing quote. *)
Lemma parse_quote_body (s rest : jsstring) :
  parse_string_body (quote_body s ++ 34 :: rest) = Some (s, rest).
Proof.
  induction s as [| c | c d s IH0 IH1] using list_pair_ind.
  - reflexivity.
  - change (quote_body [c])
      with (if is_lead c then unicode_escape c
            else if is_trail c then unicode_escape c ++ []
                 else quote_unit c ++ []).
    rewrite !app_nil_r.
    destruct (is_lead c) eqn:L; [|destruct (is_trail c) eqn:T].
    + rewrite parse_escaped_surrogate by auto. reflexivity.
    + rewrite parse_escaped_surrogate by auto. reflexivity.
    + rewrite parse_quote_unit. reflexivity.
  - change (quote_body (c :: d :: s))
      with (if is_lead c
            then if is_trail d then c :: d :: quote_body s
                 else unicode_escape c ++ quote_body (d :: s)
            else if is_trail c then unicode_escape c ++ quote_body (d :: s)
                 else quote_unit c ++ quote_body (d :: s)).
    destruct (is_lead c) eqn:L; [destruct (is_trail d) eqn:T'|destruct (is_trail c) eqn:T].
    + rewrite <- !app_comm_cons.
      rewrite (parse_surrogate c) by auto. rewrite (parse_surrogate d) by auto.
      rewrite IH0. reflexivity.
    + rewrite <- app_assoc, parse_escaped_surrogate by auto.
      rewrite IH1. reflexivity.
    + rewrite <- app_assoc, parse_escaped_surrogate by auto.
      rewrite IH1. reflexivity.
    + rewrite <- app_assoc, parse_quote_unit, IH1. reflexivity.
Qed.

(* ================================================================== *)
(** ** JSON numbers read back *)

Lemma read_digits_stop (rest : jsstring) :
  ends_number rest -> read_digits rest = (Decimal.Nil, rest).
Proof.
  destruct rest as [|c rest]; simpl; [reflexivity|].
  intros [-> _]. reflexivity.
Qed.

Lemma read_digits_chars (u : Decimal.uint) (rest : jsstring) :
  ends_number rest -> read_digits (chars_of_uint u ++ rest) = (u, rest).
Proof.
  intros H. induction u; simpl chars_of_uint;
    [apply read_digits_stop, H | ..];
    rewrite <- app_comm_cons;
    cbn [read_digits]; rewrite IHu; reflexivity.
Qed.

Lemma to_uint_no_leading_zero (p : positive) (u : Decimal.uint) :
  Pos.to_uint p <> Decimal.D0 u.
Proof.
  intros E.
  assert (N : Decimal.unorm (Pos.to_uint p) = Pos.to_uint p).
  { rewrite <- DecimalPos.Unsigned.to_of, DecimalPos.Unsigned.of_to. reflexivity. }
  rewrite E in N. unfold Decimal.unorm in N.
  destruct (Decimal.nzhead (Decimal.D0 u)) eqn:Z;
    try (apply (DecimalFacts.nzhead_nonzero (Decimal.D0 u) u); congruence).
  injection N as <-. apply (DecimalPos.Unsigned.to_uint_nonzero p). exact E.
Qed.

Lemma chars_of_uint_head (u : Decimal.uint) (rest : jsstring) :
  u <> Decimal.Nil ->
  exists c t, chars_of_uint u ++ rest = c :: t /\ is_digit c = true.
Proof.
  destruct u; [contradiction | ..]; intros _; simpl; eauto.
Qed.

Lemma continues_number_ends (rest : jsstring) :
  ends_number rest -> continues_number rest = false.
Proof.
  destruct rest as [|c rest]; simpl; [reflexivity|].
  intros (_ & H1 & H2 & H3). apply N.eqb_neq in H1, H2, H3.
  rewrite H1, H2, H3. reflexivity.
Qed.

Lemma parse_number_unsigned (p : positive) (neg : bool) (rest : jsstring) :
  ends_number rest ->
  (let '(u, r) := read_digits (chars_of_uint (Pos.to_uint p) ++ rest) in
   if continues_number r then None
   else match u with
        | Decimal.Nil => None
        | Decimal.D0 Decimal.Nil => if neg then None else Some (0%Z, r)
        | Decimal.D0 _ => None
        | _ => Some (Z.of_int (if neg then Decimal.Neg u else Decimal.Pos u), r)
        end)
  = Some (if neg then Z.neg p else Z.pos p, rest).
Proof.
  intros H. rewrite read_digits_chars by exact H.
  rewrite continues_number_ends by exact H.
  pose proof (to_uint_no_leading_zero p) as Hz.
  pose proof (DecimalPos.Unsigned.to_uint_nonnil p) as Hn.
  pose proof (DecimalZ.of_to (Z.pos p)) as Hp.
  pose proof (DecimalZ.of_to (Z.neg p)) as Hm.
  simpl Z.to_int in Hp, Hm.
  destruct (Pos.to_uint p) eqn:E;
    try contradiction; try (exfalso; eapply Hz; reflexivity);
    destruct neg; rewrite ?Hp, ?Hm; reflexivity.
Qed.

Lemma parse_number_to_string (z : Z) (rest : jsstring) :
  ends_number rest ->
  parse_number (number_to_string z ++ rest) = Some (z, rest).
Proof.
  intros H. unfold number_to_string. destruct z as [|p|p]; simpl Z.to_int.
  - unfold parse_number. simpl. rewrite read_digits_stop by exact H.
    rewrite continues_number_ends by exact H. reflexivity.
  - unfold parse_number.
    destruct (chars_of_uint_head (Pos.to_uint p) rest
                (DecimalPos.Unsigned.to_uint_nonnil p)) as (c & t & E & D).
    pose proof (parse_number_unsigned p false rest H) as P.
    rewrite E in *.
    replace (c =? 45) with false.
    + exact P.
    + symmetry. apply N.eqb_neq. intros ->. discriminate D.
  - unfold parse_number. rewrite <- app_comm_cons.
    change (45 =? 45) with true. cbv iota.
    exact (parse_number_unsigned p true rest H).
Qed.

(* ================================================================== *)
(** ** JSON texts read back *)

Lemma json_induction (P : json -> Prop) :
  P JNull ->
  (forall b, P (JBool b)) ->
  (forall z, P (JNum z)) ->
  (forall s, P (JStr s)) ->
  (forall l, Forall P l -> P (JArr l)) ->
  (forall l, Forall (fun kv => P (snd kv)) l -> P (JObj l)) ->
  forall v, P v.
Proof.
  intros Hnull Hbool Hnum Hstr Harr Hobj.
  fix IH 1. intros [ | b | z | s | l | l ].
  - exact Hnull.
  - apply Hbool.
  - apply Hnum.
  - apply Hstr.
  - apply Harr. induction l as [|e l IHl]; constructor; [apply IH | exact IHl].
  - apply Hobj. induction l as [|[k e] l IHl]; constructor; [apply IH | exact IHl].
Qed.

Lemma ends_value_number (rest : jsstring) : ends_value rest -> ends_number rest.
Proof.
  destruct rest as [|c rest]; simpl; [trivial|].
  intros [-> | [-> | ->]]; repeat split; try reflexivity; discriminate.
Qed.

Lemma stringify_array (l : list json) :
  JSON_stringify (JArr l) = 91 :: join [44] (List.map JSON_stringify l) ++ [93].
Proof. reflexivity. Qed.

Lemma stringify_object (l : list (jsstring * json)) :
  JSON_stringify (JObj l) = 123 :: join [44] (List.map member_text l) ++ [125].
Proof. reflexivity. Qed.

Lemma join_cons2 (sep p q : jsstring) (ps : list jsstring) :
  join sep (p :: q :: ps) = p ++ sep ++ join sep (q :: ps).
Proof. reflexivity. Qed.

Lemma number_to_string_head (z : Z) :
  exists c t, number_to_string z = c :: t /\ (is_digit c = true \/ c = 45).
Proof.
  unfold number_to_string. destruct z as [|p|p]; simpl Z.to_int.
  - exists 48, []. auto.
  - destruct (chars_of_uint_head (Pos.to_uint p) []
                (DecimalPos.Unsigned.to_uint_nonnil p)) as (c & t & E & D).
    rewrite app_nil_r in E. eauto.
  - eauto.
Qed.

Lemma digit_opens_value (c : code_unit) :
  is_digit c = true \/ c = 45 -> opens_value c.
Proof.
  unfold is_digit, opens_value, is_ws.
  rewrite andb_true_iff, !N.leb_le. intros H.
  repeat split; try lia.
  repeat (apply orb_false_iff; split); apply N.eqb_neq; lia.
Qed.

Lemma stringify_head (v : json) :
  exists c t, JSON_stringify v = c :: t /\ opens_value c.
Proof.
  destruct v as [ | [|] | z | s | l | l ];
    try (eexists _, _; split; [reflexivity | repeat split; discriminate]).
  destruct (number_to_string_head z) as (c & t & E & D).
  exists c, t. split; [exact E | apply digit_opens_value, D].
Qed.

Lemma parse_value_number (f : nat) (c : code_unit) (t : jsstring) :
  is_digit c = true \/ c = 45 ->
  parse_value (S f) (c :: t) = map_parsed JNum (parse_number (c :: t)).
Proof.
  intros H. pose proof (digit_opens_value c H) as (W & _).
  assert (E : forall k, k < 45 \/ 57 < k -> (c =? k) = false).
  { intros k Hk. apply N.eqb_neq. unfold is_digit in H.
    rewrite andb_true_iff, !N.leb_le in H. lia. }
  cbn [parse_value skip_ws]. rewrite W.
  rewrite !E by lia. reflexivity.
Qed.

Lemma parse_value_array (f : nat) (c : code_unit) (t : jsstring) :
  opens_value c ->
  parse_value (S f) (91 :: c :: t) = map_parsed JArr (parse_elements f (c :: t)).
Proof.
  intros (W & B & _). apply N.eqb_neq in B.
  change (parse_value (S f) (91 :: c :: t))
    with (match skip_ws (c :: t) with
          | [] => None
          | c' :: r' =>
              if c' =? 93 then Some (JArr [], r')
              else map_parsed JArr (parse_elements f (c' :: r'))
          end).
  cbn [skip_ws]. rewrite W, B. reflexivity.
Qed.

Lemma parse_members_head (f : nat) (t : jsstring) :
  parse_value (S f) (123 :: 34 :: t) = map_parsed JObj (parse_members f (34 :: t)).
Proof. reflexivity. Qed.

Lemma skip_ws_opens (c : code_unit) (t : jsstring) :
  opens_value c -> skip_ws (c :: t) = c :: t.
Proof. intros (W & _). simpl. rewrite W. reflexivity. Qed.

Lemma parse_elements_eq (f : nat) (s : jsstring) :
  parse_elements (S f) s =
  match parse_value f s with
  | None => None
  | Some (v, r) =>
      match skip_ws r with
      | [] => None
      | c :: r' =>
          if c =? 44 then cons_parsed v (parse_elements f r')
          else if c =? 93 then Some ([v], r')
          else None
      end
  end.
Proof. reflexivity. Qed.

Lemma parse_members_eq (f : nat) (t : jsstring) :
  parse_members (S f) (34 :: t) =
  match parse_string_body t with
  | None => None
  | Some (k, r1) =>
      match skip_ws r1 with
      | [] => None
      | colon :: r2 =>
          if colon =? 58 then
            match parse_value f r2 with
            | None => None
            | Some (v, r3) =>
                match skip_ws r3 with
                | [] => None
                | c :: r4 =>
                    if c =? 44 then cons_parsed (k, v) (parse_members f r4)
                    else if c =? 125 then Some ([(k, v)], r4)
                    else None
                end
            end
          else None
      end
  end.
Proof. reflexivity. Qed.

Lemma elements_read_back (l : list json) :
  Forall reads_back l -> l <> [] ->
  forall (f : nat) (rest : jsstring),
    (2 * List.length (join [44%N] (List.map JSON_stringify l) ++ [93%N]) <= f)%nat ->
    parse_elements f ((join [44] (List.map JSON_stringify l) ++ [93]) ++ rest)
    = Some (l, rest).
Proof.
  induction 1 as [|e l He Hl IH]; [congruence|]. intros _ f rest Hf.
  destruct f as [|f]; [rewrite length_app in Hf; simpl in Hf; lia|].
  rewrite parse_elements_eq.
  destruct l as [|e' l].
  - cbn [List.map join] in *. rewrite <- app_assoc.
    rewrite length_app in Hf. simpl in Hf.
    rewrite (He f) by (simpl; auto; lia).
    reflexivity.
  - cbn [List.map] in *. rewrite join_cons2 in *.
    rewrite <- !app_assoc. rewrite !length_app in Hf. cbn [List.length] in Hf.
    rewrite (He f) by (simpl; auto; lia).
    cbn [app skip_ws]. change (is_ws 44) with false. cbv iota.
    change (44 =? 44) with true. cbv iota.
    specialize (IH ltac:(discriminate) f rest).
    rewrite <- app_assoc in IH. cbn [app] in IH. rewrite IH; [reflexivity|].
    rewrite !length_app. cbn [List.length]. lia.
Qed.

Lemma members_read_back (l : list (jsstring * json)) :
  Forall (fun kv => reads_back (snd kv)) l -> l <> [] ->
  forall (f : nat) (rest : jsstring),
    (2 * List.length (join [44%N] (List.map member_text l) ++ [125%N]) <= f)%nat ->
    parse_members f ((join [44] (List.map member_text l) ++ [125]) ++ rest)
    = Some (l, rest).
Proof.
  induction 1 as [|[k e] l He Hl IH]; [congruence|]. intros _ f rest Hf.
  destruct f as [|f]; [rewrite length_app in Hf; simpl in Hf; lia|].
  simpl snd in He.
  assert (M : forall tail,
             member_text (k, e) ++ tail
             = 34 :: quote_body k ++ 34 :: 58 :: JSON_stringify e ++ tail).
  { intros tail. unfold member_text, QuoteJSONString. simpl fst; simpl snd.
    rewrite <- !app_comm_cons, <- !app_assoc. reflexivity. }
  assert (L : (List.length (JSON_stringify e) + 3 <= List.length (member_text (k, e)))%nat).
  { unfold member_text, QuoteJSONString. simpl fst; simpl snd.
    repeat (rewrite ?length_app; cbn [List.length]). lia. }
  destruct l as [|kv' l].
  - cbn [List.map join] in *. rewrite <- app_assoc, M.
    rewrite length_app in Hf. cbn [List.length] in Hf.
    rewrite parse_members_eq, parse_quote_body.
    cbn [skip_ws]. change (is_ws 58) with false. cbv iota.
    change (58 =? 58) with true. cbv iota.
    rewrite (He f) by (simpl; auto; lia).
    reflexivity.
  - cbn [List.map] in *. rewrite join_cons2 in *.
    rewrite <- !app_assoc, M. rewrite !length_app in Hf. cbn [List.length] in Hf.
    rewrite parse_members_eq, parse_quote_body.
    cbn [skip_ws]. change (is_ws 58) with false. cbv iota.
    change (58 =? 58) with true. cbv iota.
    rewrite (He f) by (simpl; auto; lia).
    cbn [app skip_ws]. change (is_ws 44) with false. cbv iota.
    change (44 =? 44) with true. cbv iota.
    specialize (IH ltac:(discriminate) f rest).
    rewrite <- app_assoc in IH. cbn [app] in IH. rewrite IH; [reflexivity|].
    rewrite !length_app. cbn [List.length]. lia.
Qed.

Theorem stringify_reads_back (v : json) : reads_back v.
Proof.
  induction v as [ | b | z | s | l IH | l IH ] using json_induction;
    intros f rest Hrest Hf.
  - destruct f as [|f]; [simpl in Hf; lia | reflexivity].
  - destruct f as [|f]; [destruct b; simpl in Hf; lia | destruct b; reflexivity].
  - destruct (number_to_string_head z) as (c & t & E & D).
    destruct f as [|f]; [simpl in Hf; rewrite E in Hf; simpl in Hf; lia|].
    pose proof (parse_number_to_string z rest (ends_value_number rest Hrest)) as P.
    simpl JSON_stringify. rewrite E in *. rewrite <- app_comm_cons in *.
    rewrite parse_value_number by exact D. rewrite P. reflexivity.
  - destruct f as [|f]; [simpl in Hf; lia|].
    change (parse_value (S f) (JSON_stringify (JStr s) ++ rest))
      with (map_parsed JStr (parse_string_body ((quote_body s ++ [34]) ++ rest))).
    rewrite <- app_assoc. cbn [app]. rewrite parse_quote_body. reflexivity.
  - destruct f as [|f]; [simpl in Hf; lia|].
    destruct l as [|e l]; [reflexivity|].
    rewrite stringify_array in *. rewrite <- app_comm_cons.
    cbn [List.length] in Hf.
    destruct (stringify_head e) as (c & t & E & O).
    pose proof (elements_read_back (e :: l) IH ltac:(discriminate) f rest
                  ltac:(lia)) as R.
    destruct l as [|e' l]; cbn [List.map] in *;
      [cbn [join] in * | rewrite join_cons2 in *];
      rewrite E in *; rewrite <- !app_assoc, <- !app_comm_cons in *;
      rewrite parse_value_array by exact O; rewrite R; reflexivity.
  - destruct f as [|f]; [simpl in Hf; lia|].
    destruct l as [|[k e] l]; [reflexivity|].
    rewrite stringify_object in *. rewrite <- app_comm_cons.
    cbn [List.length] in Hf.
    pose proof (members_read_back ((k, e) :: l) IH ltac:(discriminate) f rest
                  ltac:(lia)) as R.
    assert (E : exists t, member_text (k, e) = 34 :: t) by (eexists; reflexivity).
    destruct E as (t & E).
    destruct l as [|kv' l]; cbn [List.map] in *;
      [cbn [join] in * | rewrite join_cons2 in *];
      rewrite E in *; rewrite <- !app_assoc, <- !app_comm_cons in *;
      rewrite parse_members_head; rewrite R; reflexivity.
Qed.

Lemma is_nil_true {A} (l : list A) : is_nil l = true <-> l = [].
Proof. destruct l; simpl; split; congruence. Qed.

Corollary JSON_parse_stringify (v : json) : JSON_parse (JSON_stringify v) = Some v.
Proof.
  unfold JSON_parse.
  pose proof (stringify_reads_back v (2 * List.length (JSON_stringify v))%nat [] I
                (Nat.le_refl _)) as R.
  rewrite app_nil_r in R. rewrite R. reflexivity.
Qed.

(* ================================================================== *)
(** ** UTF-8 read back *)

Lemma utf16_of_pair (c d : code_unit) :
  is_lead c = true -> is_trail d = true ->
  utf16_of_code_point (code_point_of_pair c d) = [c; d].
Proof.
  unfold is_lead, is_trail, utf16_of_code_point, code_point_of_pair.
  rewrite !andb_true_iff, !N.leb_le, !N.ltb_lt. intros [? ?] [? ?].
  decide_tests. f_equal; [|f_equal]; dlia.
Qed.

Lemma pair_is_scalar (c d : code_unit) :
  is_lead c = true -> is_trail d = true ->
  65536 <= code_point_of_pair c d <= 1114111.
Proof.
  unfold is_lead, is_trail, code_point_of_pair.
  rewrite !andb_true_iff, !N.leb_le, !N.ltb_lt. lia.
Qed.

Lemma not_surrogate_test (v : N) :
  ~ (55296 <= v <= 57343) -> (55296 <=? v) && (v <=? 57343) = false.
Proof.
  intros H. apply andb_false_iff. rewrite !N.leb_gt. lia.
Qed.

Lemma utf8_decode_code_point (v : N) (t : list byte) :
  v <= 1114111 -> ~ (55296 <= v <= 57343) ->
  utf8_decode (utf8_of_code_point v ++ t)
  = option_map (app (utf16_of_code_point v)) (utf8_decode t).
Proof.
  intros Hmax Hsur. unfold utf8_of_code_point.
  destruct (N.ltb_spec v 128); [|destruct (N.ltb_spec v 2048);
    [|destruct (N.ltb_spec v 65536)]];
    cbn [app utf8_decode]; unfold is_continuation, valid_code_point; cbv zeta;
    pose proof (not_surrogate_test v Hsur) as NS.
  - decide_tests. unfold utf16_of_code_point. decide_tests.
    destruct (utf8_decode t); reflexivity.
  - replace ((192 + v / 64 - 192) * 64 + (128 + v mod 64 - 128)) with v by dlia.
    rewrite NS. decide_tests. reflexivity.
  - replace (((224 + v / 4096 - 224) * 64 + (128 + (v / 64) mod 64 - 128)) * 64
             + (128 + v mod 64 - 128)) with v by dlia.
    rewrite NS. decide_tests. reflexivity.
  - replace ((((240 + v / 262144 - 240) * 64 + (128 + (v / 4096) mod 64 - 128)) * 64
              + (128 + (v / 64) mod 64 - 128)) * 64 + (128 + v mod 64 - 128))
      with v by dlia.
    rewrite NS. decide_tests. reflexivity.
Qed.

Lemma utf8_of_code_point_bytes (v : N) :
  v <= 1114111 -> Forall (fun b => b < 256) (utf8_of_code_point v).
Proof.
  intros H. unfold utf8_of_code_point.
  destruct (N.ltb_spec v 128); [|destruct (N.ltb_spec v 2048);
    [|destruct (N.ltb_spec v 65536)]];
    repeat constructor; dlia.
Qed.

Lemma well_formed_unit (c : code_unit) (s : jsstring) :
  is_lead c = false -> well_formed (c :: s) = true ->
  c < 65536 /\ ~ (55296 <= c <= 57343) /\ well_formed s = true.
Proof.
  intros L W. cbn [well_formed] in W. rewrite L in W.
  apply andb_true_iff in W as [W1 W]. apply andb_true_iff in W1 as [T B].
  apply negb_true_iff in T. apply N.ltb_lt in B.
  unfold is_lead in L. unfold is_trail in T.
  apply andb_false_iff in L, T. rewrite N.leb_gt, N.ltb_ge in L, T.
  repeat split; try assumption; lia.
Qed.

(** [TextEncoder.encode] loses nothing on well-formed strings. *)
Lemma utf8_decode_encode (s : jsstring) :
  well_formed s = true -> utf8_decode (TextEncoder_encode s) = Some s.
Proof.
  induction s as [| c | c d s IH0 IH1] using list_pair_ind.
  - reflexivity.
  - destruct (is_lead c) eqn:L; [cbn [well_formed]; rewrite L; discriminate|].
    intros W. destruct (well_formed_unit c [] L W) as (B & S & _).
    cbn [TextEncoder_encode]. rewrite L.
    replace (is_trail c) with false
      by (unfold is_trail; symmetry; apply andb_false_iff;
          rewrite N.leb_gt, N.ltb_ge; unfold is_lead in L;
          apply andb_false_iff in L; rewrite N.leb_gt, N.ltb_ge in L; lia).
    rewrite utf8_decode_code_point by (try assumption; lia).
    unfold utf16_of_code_point. decide_tests. reflexivity.
  - destruct (is_lead c) eqn:L.
    + cbn [well_formed]. rewrite L, andb_true_iff. intros [T W].
      cbn [TextEncoder_encode]. rewrite L, T.
      pose proof (pair_is_scalar c d L T).
      rewrite utf8_decode_code_point, (IH0 W), utf16_of_pair by (auto; lia).
      reflexivity.
    + intros W. destruct (well_formed_unit c (d :: s) L W) as (B & S & W').
      change (TextEncoder_encode (c :: d :: s))
        with (if is_lead c
              then if is_trail d
                   then utf8_of_code_point (code_point_of_pair c d) ++ TextEncoder_encode s
                   else utf8_of_code_point 65533 ++ TextEncoder_encode (d :: s)
              else if is_trail c
                   then utf8_of_code_point 65533 ++ TextEncoder_encode (d :: s)
                   else utf8_of_code_point c ++ TextEncoder_encode (d :: s)).
      rewrite L.
      replace (is_trail c) with false
        by (unfold is_trail; symmetry; apply andb_false_iff;
            rewrite N.leb_gt, N.ltb_ge; unfold is_lead in L;
            apply andb_false_iff in L; rewrite N.leb_gt, N.ltb_ge in L; lia).
      rewrite utf8_decode_code_point, (IH1 W') by (try assumption; lia).
      unfold utf16_of_code_point. decide_tests. reflexivity.
Qed.

Lemma encode_bytes (s : jsstring) :
  well_formed s = true -> Forall (fun b => b < 256) (TextEncoder_encode s).
Proof.
  induction s as [| c | c d s IH0 IH1] using list_pair_ind.
  - constructor.
  - destruct (is_lead c) eqn:L; [cbn [well_formed]; rewrite L; discriminate|].
    intros W. destruct (well_formed_unit c [] L W) as (B & S & _).
    cbn [TextEncoder_encode]. rewrite L.
    destruct (is_trail c); rewrite app_nil_r; apply utf8_of_code_point_bytes; lia.
  - destruct (is_lead c) eqn:L.
    + cbn [well_formed]. rewrite L, andb_true_iff. intros [T W].
      cbn [TextEncoder_encode]. rewrite L, T.
      pose proof (pair_is_scalar c d L T).
      apply Forall_app. split; [apply utf8_of_code_point_bytes; lia | auto].
    + intros W. destruct (well_formed_unit c (d :: s) L W) as (B & S & W').
      change (TextEncoder_encode (c :: d :: s))
        with (if is_lead c
              then if is_trail d
                   then utf8_of_code_point (code_point_of_pair c d) ++ TextEncoder_encode s
                   else utf8_of_code_point 65533 ++ TextEncoder_encode (d :: s)
              else if is_trail c
                   then utf8_of_code_point 65533 ++ TextEncoder_encode (d :: s)
                   else utf8_of_code_point c ++ TextEncoder_encode (d :: s)).
      rewrite L.
      destruct (is_trail c); apply Forall_app;
        (split; [apply utf8_of_code_point_bytes; lia | auto]).
Qed.

(* ================================================================== *)
(** ** base64 read back *)

Lemma base64_value_char (v : N) :
  v < 64 -> base64_value (base64_char v) = Some v /\ base64_char v <> 61.
Proof.
  intros H. unfold base64_char.
  destruct (N.ltb_spec v 26); [|destruct (N.ltb_spec v 52);
    [|destruct (N.ltb_spec v 62); [|destruct (N.eqb_spec v 62)]]];
    unfold base64_value; (split; [decide_tests; cbn [andb]; f_equal; lia | lia]).
Qed.

Lemma base64_quad (v1 v2 v3 v4 : N) (rest : jsstring) :
  v1 < 64 -> v2 < 64 -> v3 < 64 -> v4 < 64 ->
  base64_decode (base64_char v1 :: base64_char v2 :: base64_char v3
                 :: base64_char v4 :: rest)
  = option_map (fun bs => v1 * 4 + v2 / 16 :: (v2 mod 16) * 16 + v3 / 4
                          :: (v3 mod 4) * 64 + v4 :: bs)
               (base64_decode rest).
Proof.
  intros H1 H2 H3 H4.
  destruct (base64_value_char v1 H1) as [E1 _].
  destruct (base64_value_char v2 H2) as [E2 _].
  destruct (base64_value_char v3 H3) as [E3 N3].
  destruct (base64_value_char v4 H4) as [E4 N4].
  apply N.eqb_neq in N3, N4.
  cbn [base64_decode]. rewrite E1, E2, N3, E3, N4, E4. reflexivity.
Qed.

Lemma base64_pad1 (v1 v2 v3 : N) :
  v1 < 64 -> v2 < 64 -> v3 < 64 -> v3 mod 4 = 0 ->
  base64_decode [base64_char v1; base64_char v2; base64_char v3; 61]
  = Some [v1 * 4 + v2 / 16; (v2 mod 16) * 16 + v3 / 4].
Proof.
  intros H1 H2 H3 Z.
  destruct (base64_value_char v1 H1) as [E1 _].
  destruct (base64_value_char v2 H2) as [E2 _].
  destruct (base64_value_char v3 H3) as [E3 N3].
  apply N.eqb_neq in N3. apply N.eqb_eq in Z.
  cbn [base64_decode]. rewrite E1, E2, N3, E3. cbn [N.eqb Pos.eqb is_nil andb].
  rewrite Z. reflexivity.
Qed.

Lemma base64_pad2 (v1 v2 : N) :
  v1 < 64 -> v2 < 64 -> v2 mod 16 = 0 ->
  base64_decode [base64_char v1; base64_char v2; 61; 61]
  = Some [v1 * 4 + v2 / 16].
Proof.
  intros H1 H2 Z.
  destruct (base64_value_char v1 H1) as [E1 _].
  destruct (base64_value_char v2 H2) as [E2 _].
  apply N.eqb_eq in Z.
  cbn [base64_decode]. rewrite E1, E2. cbn [N.eqb Pos.eqb is_nil andb].
  rewrite Z. reflexivity.
Qed.

Lemma list_triple_ind {A} (P : list A -> Prop) :
  P [] ->
  (forall a, P [a]) ->
  (forall a b, P [a; b]) ->
  (forall a b c l, P l -> P (a :: b :: c :: l)) ->
  forall l, P l.
Proof.
  intros H0 H1 H2 H3.
  assert (H : forall l, P l /\ (forall a, P (a :: l)) /\ (forall a b, P (a :: b :: l))).
  { induction l as [|c l (IH0 & IH1 & IH2)]; repeat split; auto. }
  intros l; apply H.
Qed.

(** The base64 text of a byte array decodes to the array. *)
Lemma base64_decode_encode (bytes : list byte) :
  Forall (fun b => b < 256) bytes ->
  base64_decode (base64FromByteArray bytes) = Some bytes.
Proof.
  induction bytes as [| a | a b | a b c l IH] using list_triple_ind; intros H.
  - reflexivity.
  - inversion_clear H as [|? ? Ha _].
    cbn [base64FromByteArray]. rewrite base64_pad2 by dlia.
    do 2 f_equal. dlia.
  - inversion_clear H as [|? ? Ha H']. inversion_clear H' as [|? ? Hb _].
    cbn [base64FromByteArray]. rewrite base64_pad1 by dlia.
    f_equal. f_equal; [|f_equal]; dlia.
  - inversion_clear H as [|? ? Ha H']. inversion_clear H' as [|? ? Hb H''].
    inversion_clear H'' as [|? ? Hc Hl].
    cbn [base64FromByteArray]. rewrite base64_quad by dlia.
    rewrite (IH Hl). cbn [option_map].
    f_equal. f_equal; [|f_equal; [|f_equal]]; dlia.
Qed.

(* ================================================================== *)
(** ** JSON.stringify writes well-formed UTF-16 *)

Lemma well_formed_cons (c : code_unit) (s : jsstring) :
  well_formed (c :: s) =
  if is_lead c
  then match s with
       | [] => false
       | d :: s' => is_trail d && well_formed s'
       end
  else negb (is_trail c) && (c <? 65536) && well_formed s.
Proof. reflexivity. Qed.

Lemma well_formed_app (a b : jsstring) :
  well_formed a = true -> well_formed b = true -> well_formed (a ++ b) = true.
Proof.
  intros Ha Hb. revert Ha.
  induction a as [| c | c d a IH0 IH1] using list_pair_ind.
  - intros _. exact Hb.
  - rewrite <- app_comm_cons, !well_formed_cons.
    destruct (is_lead c); [discriminate|].
    rewrite !andb_true_iff. intros [H _]. auto.
  - rewrite (well_formed_cons c (d :: a)). destruct (is_lead c) eqn:L.
    + rewrite <- !app_comm_cons, (well_formed_cons c), L.
      rewrite !andb_true_iff. intros [T W]. split; [exact T | apply IH0, W].
    + rewrite <- (app_comm_cons (d :: a)), (well_formed_cons c), L.
      rewrite !andb_true_iff. intros [H W]. split; [exact H | apply IH1, W].
Qed.

Lemma well_formed_plain (s : jsstring) : plain s -> well_formed s = true.
Proof.
  induction 1 as [|c s Hc _ IH]; [reflexivity|].
  cbn [well_formed]. unfold is_lead, is_trail. decide_tests.
  cbn [andb negb]. exact IH.
Qed.

Lemma hexdigit_plain (d : N) : d < 16 -> hexdigit d < 55296.
Proof. unfold hexdigit. destruct (d <? 10); lia. Qed.

Lemma unicode_escape_plain (c : code_unit) : c < 65536 -> plain (unicode_escape c).
Proof.
  intros H. unfold unicode_escape.
  repeat constructor; try lia; apply hexdigit_plain; dlia.
Qed.

Lemma quote_unit_well_formed (c : code_unit) :
  c < 65536 -> ~ (55296 <= c <= 57343) -> well_formed (quote_unit c) = true.
Proof.
  intros H S. unfold quote_unit.
  repeat match goal with
         | |- context [if ?c =? ?k then _ else _] =>
             destruct (N.eqb_spec c k); [reflexivity|]
         end.
  destruct (N.ltb_spec c 32).
  - apply well_formed_plain, unicode_escape_plain, H.
  - cbn [well_formed]. unfold is_lead, is_trail.
    destruct (N.leb_spec 55296 c).
    + decide_tests. reflexivity.
    + decide_tests. reflexivity.
Qed.

Lemma surrogate_u16 (c : code_unit) :
  is_lead c = true \/ is_trail c = true -> c < 65536.
Proof. intros H. apply surrogate_is_raw in H. tauto. Qed.

Lemma not_surrogate (c : code_unit) :
  is_lead c = false -> is_trail c = false -> ~ (55296 <= c <= 57343).
Proof.
  unfold is_lead, is_trail. rewrite !andb_false_iff, !N.leb_gt, !N.ltb_ge. lia.
Qed.

Lemma quote_body_well_formed (s : jsstring) :
  wf_string s -> well_formed (quote_body s) = true.
Proof.
  induction s as [| c | c d s IH0 IH1] using list_pair_ind; intros W.
  - reflexivity.
  - inversion_clear W as [|? ? Hc _].
    change (quote_body [c])
      with (if is_lead c then unicode_escape c
            else if is_trail c then unicode_escape c ++ []
                 else quote_unit c ++ []).
    rewrite !app_nil_r.
    destruct (is_lead c) eqn:L; [|destruct (is_trail c) eqn:T].
    + apply well_formed_plain, unicode_escape_plain, Hc.
    + apply well_formed_plain, unicode_escape_plain, Hc.
    + apply quote_unit_well_formed; [exact Hc | apply not_surrogate; assumption].
  - inversion_clear W as [|? ? Hc W']. pose proof W' as W''.
    inversion_clear W'' as [|? ? Hd Ws].
    change (quote_body (c :: d :: s))
      with (if is_lead c
            then if is_trail d then c :: d :: quote_body s
                 else unicode_escape c ++ quote_body (d :: s)
            else if is_trail c then unicode_escape c ++ quote_body (d :: s)
                 else quote_unit c ++ quote_body (d :: s)).
    destruct (is_lead c) eqn:L; [destruct (is_trail d) eqn:T'|destruct (is_trail c) eqn:T].
    + cbn [well_formed]. rewrite L, T'. apply IH0, Ws.
    + apply well_formed_app; [|apply IH1, W'].
      apply well_formed_plain, unicode_escape_plain, Hc.
    + apply well_formed_app; [|apply IH1, W'].
      apply well_formed_plain, unicode_escape_plain, Hc.
    + apply well_formed_app; [|apply IH1, W'].
      apply quote_unit_well_formed; [exact Hc | apply not_surrogate; assumption].
Qed.

Lemma QuoteJSONString_well_formed (s : jsstring) :
  wf_string s -> well_formed (QuoteJSONString s) = true.
Proof.
  intros W. unfold QuoteJSONString.
  change (34 :: quote_body s ++ [34]) with ([34] ++ quote_body s ++ [34]).
  repeat apply well_formed_app; try reflexivity.
  apply quote_body_well_formed, W.
Qed.

Lemma chars_of_uint_plain (u : Decimal.uint) : plain (chars_of_uint u).
Proof. induction u; simpl; constructor; try assumption; lia. Qed.

Lemma number_to_string_well_formed (z : Z) :
  well_formed (number_to_string z) = true.
Proof.
  unfold number_to_string. apply well_formed_plain.
  destruct (Z.to_int z); [|constructor; [lia|]]; apply chars_of_uint_plain.
Qed.

Lemma join_well_formed (sep : jsstring) (parts : list jsstring) :
  well_formed sep = true ->
  Forall (fun p => well_formed p = true) parts ->
  well_formed (join sep parts) = true.
Proof.
  intros Hsep. induction 1 as [|p ps Hp Hps IH]; [reflexivity|].
  destruct ps as [|q ps]; [exact Hp|].
  rewrite join_cons2. repeat apply well_formed_app; assumption.
Qed.

Lemma wf_json_array (l : list json) : wf_json (JArr l) <-> Forall wf_json l.
Proof.
  induction l as [|e l IH]; cbn [wf_json] in *.
  - split; constructor.
  - rewrite IH. split.
    + intros [? ?]. constructor; assumption.
    + intros H. inversion H. split; assumption.
Qed.

Lemma wf_json_object (l : list (jsstring * json)) :
  wf_json (JObj l) <-> Forall (fun kv => wf_string (fst kv) /\ wf_json (snd kv)) l.
Proof.
  induction l as [|[k e] l IH]; cbn [wf_json] in *.
  - split; constructor.
  - rewrite IH. split.
    + intros (? & ? & ?). constructor; [split|]; assumption.
    + intros H. inversion H as [|? ? [? ?] ?]. repeat split; assumption.
Qed.

Theorem stringify_well_formed (v : json) :
  wf_json v -> well_formed (JSON_stringify v) = true.
Proof.
  induction v as [ | b | z | s | l IH | l IH ] using json_induction; intros W.
  - reflexivity.
  - destruct b; reflexivity.
  - apply number_to_string_well_formed.
  - apply QuoteJSONString_well_formed, W.
  - rewrite stringify_array.
    change (91 :: join [44] (List.map JSON_stringify l) ++ [93])
      with ([91] ++ join [44] (List.map JSON_stringify l) ++ [93]).
    repeat apply well_formed_app; try reflexivity.
    apply join_well_formed; [reflexivity|].
    apply wf_json_array in W. apply Forall_map.
    induction IH as [|e l He _ IHl]; constructor; inversion W; auto.
  - rewrite stringify_object.
    change (123 :: join [44] (List.map member_text l) ++ [125])
      with ([123] ++ join [44] (List.map member_text l) ++ [125]).
    repeat apply well_formed_app; try reflexivity.
    apply join_well_formed; [reflexivity|].
    apply wf_json_object in W. apply Forall_map.
    induction IH as [|[k e] l He _ IHl]; constructor;
      inversion W as [|? ? [Wk We] Wl]; subst; auto.
    unfold member_text. simpl fst; simpl snd in *.
    change (58 :: JSON_stringify e) with ([58] ++ JSON_stringify e).
    apply well_formed_app; [apply QuoteJSONString_well_formed, Wk|].
    apply well_formed_app; [reflexivity | apply He, We].
Qed.

(* ================================================================== *)
(** ** Code units stay code units *)

Lemma wf_string_forallb (s : jsstring) : forallb is_u16 s = true -> wf_string s.
Proof.
  intros H. apply Forall_forall. intros c Hc.
  rewrite forallb_forall in H. apply N.ltb_lt, H, Hc.
Qed.

Lemma hexval_bound (c d : N) : hexval c = Some d -> d < 16.
Proof.
  unfold hexval.
  destruct ((48 <=? c) && (c <=? 57)) eqn:E1;
    [|destruct ((65 <=? c) && (c <=? 70)) eqn:E2;
      [|destruct ((97 <=? c) && (c <=? 102)) eqn:E3]];
    try discriminate; intros [= <-];
    match goal with
    | H : _ && _ = true |- _ =>
        apply andb_true_iff in H; rewrite !N.leb_le in H; lia
    end.
Qed.

Lemma hex_octet_bound (h l b : N) : hex_octet h l = Some b -> b < 256.
Proof.
  unfold hex_octet.
  destruct (hexval h) as [x|] eqn:Eh; [|discriminate].
  destruct (hexval l) as [y|] eqn:El; [|discriminate].
  apply hexval_bound in Eh, El. intros E.
  assert (b = 16 * x + y) by congruence. lia.
Qed.

Lemma utf16_of_code_point_wf (v : N) :
  v <= 1114111 -> wf_string (utf16_of_code_point v).
Proof.
  intros H. unfold utf16_of_code_point.
  destruct (N.ltb_spec v 65536); repeat constructor; dlia.
Qed.

Lemma first_octet_idle (b : N) : first_octet b = Some Idle -> b < 128.
Proof.
  unfold first_octet.
  destruct (N.ltb_spec b 128); [auto|].
  destruct (b <? 192); [discriminate|].
  destruct (b <? 224); [discriminate|].
  destruct (b <? 240); [discriminate|].
  destruct (b <? 248); discriminate.
Qed.

Lemma decode_from_wf (n : nat) :
  forall (s : jsstring) (st : pending) (r : jsstring),
    (List.length s <= n)%nat -> wf_string s ->
    decode_from st s = Some r -> wf_string r.
Proof.
  induction n as [|n IH]; intros s st r Hn Hs.
  - destruct s; [|simpl in Hn; lia].
    destruct st; simpl; [intros [= <-]; constructor | discriminate].
  - destruct s as [|c s1]; [destruct st; simpl; [intros [= <-]; constructor | discriminate]|].
    inversion_clear Hs as [|? ? Hc Hs1]. cbn [decode_from].
    destruct (c =? 37).
    + destruct s1 as [|h [|l s3]]; try discriminate.
      inversion_clear Hs1 as [|? ? _ Hs2]. inversion_clear Hs2 as [|? ? _ Hs3].
      assert (L3 : (List.length s3 <= n)%nat) by (simpl in Hn; lia).
      destruct (hex_octet h l) as [b|] eqn:Eb; [|discriminate].
      destruct st as [|need acc lowest].
      * destruct (first_octet b) as [[|need acc lowest]|] eqn:Ef; [| |discriminate].
        -- destruct (decode_from Idle s3) as [r'|] eqn:E; [|discriminate].
           intros [= <-]. constructor.
           ++ apply first_octet_idle in Ef. lia.
           ++ eapply IH; eauto.
        -- intros E. eapply IH; eauto.
      * destruct (is_continuation b); [|discriminate].
        cbv zeta.
        assert (Last : (if valid_code_point (acc * 64 + (b - 128)) lowest
                        then option_map (app (utf16_of_code_point (acc * 64 + (b - 128))))
                                        (decode_from Idle s3)
                        else None) = Some r -> wf_string r).
        { destruct (valid_code_point (acc * 64 + (b - 128)) lowest) eqn:V; [|discriminate].
          destruct (decode_from Idle s3) as [r'|] eqn:E; [|discriminate].
          intros [= <-]. apply Forall_app. split.
          - apply utf16_of_code_point_wf. unfold valid_code_point in V.
            rewrite !andb_true_iff, !N.leb_le in V. lia.
          - eapply IH; eauto. }
        destruct need as [|[|k]]; try exact Last.
        intros E. eapply IH; eauto.
    + destruct st; [|discriminate].
      destruct (decode_from Idle s1) as [r'|] eqn:E; [|discriminate].
      intros [= <-]. constructor; [exact Hc|].
      eapply IH; eauto. simpl in Hn; lia.
Qed.

Lemma decodeURIComponent_wf (s r : jsstring) :
  wf_string s -> decodeURIComponent s = Normal r -> wf_string r.
Proof.
  unfold decodeURIComponent. intros Hs.
  destruct (decode_from Idle s) as [r'|] eqn:E; [|discriminate].
  intros [= <-]. eapply decode_from_wf; eauto.
Qed.

Lemma split_from_wf (sep : jsstring) (s : jsstring) :
  wf_string s -> forall skip, Forall wf_string (split_from sep skip s).
Proof.
  induction 1 as [|c s Hc Hs IH]; intros skip.
  - repeat constructor.
  - cbn [split_from]. destruct skip as [|k]; [|apply IH].
    destruct (startsWith sep (c :: s)).
    + constructor; [constructor | apply IH].
    + specialize (IH O). destruct (split_from sep 0 s) as [|part parts].
      * repeat constructor. exact Hc.
      * inversion_clear IH. constructor; [constructor|]; assumption.
Qed.

Lemma split_wf (sep s : jsstring) :
  wf_string s -> Forall wf_string (split sep s).
Proof.
  intros H. destruct sep as [|x sep].
  - simpl. apply Forall_map. eapply Forall_impl; [|exact H].
    intros c Hc. repeat constructor. exact Hc.
  - apply split_from_wf, H.
Qed.

Lemma join_wf (sep : jsstring) (parts : list jsstring) :
  wf_string sep -> Forall wf_string parts -> wf_string (join sep parts).
Proof.
  intros Hsep. induction 1 as [|p ps Hp Hps IH]; [constructor|].
  destruct ps as [|q ps]; [exact Hp|].
  rewrite join_cons2. repeat (apply Forall_app; split); assumption.
Qed.

Lemma mapM_Forall2 {A B} (f : A -> completion B) (xs : list A) (ys : list B) :
  mapM f xs = Normal ys <-> Forall2 (fun x y => f x = Normal y) xs ys.
Proof.
  revert ys. induction xs as [|x xs IH]; intros ys; cbn [mapM].
  - split; [intros [= <-]; constructor | intros H; inversion H; reflexivity].
  - split.
    + destruct (f x) as [y|] eqn:E; [|discriminate]. cbn [bind].
      destruct (mapM f xs) as [ys'|] eqn:E'; [|discriminate]. cbn [bind].
      intros [= <-]. constructor; [exact E | apply IH; reflexivity].
    + intros H. inversion H as [|? y ? ys' Hx Hxs]; subst.
      apply IH in Hxs. rewrite Hx, Hxs. reflexivity.
Qed.

(* ================================================================== *)
(** ** getResizedUrl *)

Lemma split_two_includes (url pre keyPath : jsstring) :
  split (s3Hostname ++ lit "/") url = [pre; keyPath] ->
  includes s3Hostname url = true.
Proof.
  intros H. destruct (includes s3Hostname url) eqn:I; [reflexivity|].
  destruct (includes (s3Hostname ++ lit "/") url) eqn:I'.
  - apply includes_app_l in I'. congruence.
  - rewrite split_absent in H by (discriminate || exact I'). discriminate.
Qed.

Lemma literal_request_wf (key : jsstring) (edit : json) :
  wf_string key -> wf_json edit -> wf_json (imageRequest key edit).
Proof.
  intros Hk He. cbn [imageRequest wf_json].
  repeat split; try assumption; apply wf_string_forallb; reflexivity.
Qed.

(** The three decoders undo the three encoders of [getResizedUrl]. *)
Lemma decode_request_encode (v : json) :
  wf_json v ->
  decode_request (base64FromByteArray (TextEncoder_encode (JSON_stringify v)))
  = Some v.
Proof.
  intros W. pose proof (stringify_well_formed v W) as F.
  unfold decode_request.
  rewrite base64_decode_encode by (apply encode_bytes, F).
  rewrite utf8_decode_encode by exact F.
  apply JSON_parse_stringify.
Qed.

(** What [getResizedUrl] does once both guards have let the URL through. *)
Lemma getResizedUrl_rewrite (url pre keyPath : jsstring) (edit : json) :
  split (s3Hostname ++ lit "/") url = [pre; keyPath] ->
  getResizedUrl url edit =
  (segments <- mapM decodeURIComponent (split (lit "/") keyPath) ;;
   Normal (cloudfrontHostname ++ lit "/" ++
           base64FromByteArray
             (TextEncoder_encode
                (JSON_stringify (imageRequest (join (lit "/") segments) edit))))).
Proof.
  intros H. pose proof (split_two_includes url pre keyPath H) as I.
  destruct url as [|c url]; [vm_compute in I; discriminate|].
  unfold getResizedUrl. rewrite I, H. reflexivity.
Qed.

(** Being made of escapes [%HH] is not enough for [decodeURIComponent] to
    accept a segment: the escaped bytes must be well-formed UTF-8.  A lone
    byte E9 and an encoded surrogate are refused like a bare percent sign. *)
Example decodeURIComponent_refuses :
  decodeURIComponent (lit "100%.png") = Throw URIError
  /\ decodeURIComponent (lit "caf%E9.png") = Throw URIError
  /\ decodeURIComponent (lit "%ED%A0%80.png") = Throw URIError
  /\ decodeURIComponent (lit "caf%C3%A9.png") = Normal (lit "caf" ++ [233] ++ lit ".png").
Proof. repeat split; reflexivity. Qed.

(** C1 (as amended): for every storage URL that splits into exactly two
    parts on the storage host followed by a slash, and whose path segments
    are each decoded by [decodeURIComponent] without error (every percent
    sign starts an escape [%HH], and the escaped bytes are well-formed
    UTF-8), and for every edit request that is a JSON value whose numbers
    are safe integers, [getResizedUrl] returns the CDN host, a slash and a
    base64 text; decoding that text as base64, then UTF-8, then JSON yields
    exactly the object with [bucket] the bucket name, [key] the decoded
    segments rejoined with slashes, and [edits] the edit request.
    ([wf_string] says that a string is made of 16-bit code units, as every
    JavaScript string is; [wf_json] says so of the strings of a value and
    bounds its numbers by [MAX_SAFE_INTEGER].) *)
Theorem getResizedUrl_storage_url
        (url pre keyPath : jsstring) (segments : list jsstring) (edit : json) :
  wf_string url -> wf_json edit ->
  split (s3Hostname ++ lit "/") url = [pre; keyPath] ->
  Forall2 (fun segment decoded => decodeURIComponent segment = Normal decoded)
          (split (lit "/") keyPath) segments ->
  exists b64,
    getResizedUrl url edit = Normal (cloudfrontHostname ++ lit "/" ++ b64) /\
    decode_request b64
    = Some (JObj [(lit "bucket", JStr (lit "ntmg-media"));
                  (lit "key", JStr (join (lit "/") segments));
                  (lit "edits", edit)]).
Proof.
  intros Wurl Wedit Hsplit Hdec.
  rewrite (getResizedUrl_rewrite url pre keyPath edit Hsplit).
  pose proof Hdec as Hmap. apply mapM_Forall2 in Hmap. rewrite Hmap. cbn [bind].
  eexists. split; [reflexivity|].
  apply (decode_request_encode (imageRequest (join (lit "/") segments) edit)).
  apply literal_request_wf; [|exact Wedit].
  apply join_wf; [apply wf_string_forallb; reflexivity|].
  assert (Wpath : wf_string keyPath).
  { pose proof (split_wf (s3Hostname ++ lit "/") url Wurl) as W.
    rewrite Hsplit in W. inversion_clear W as [|? ? _ W']. inversion_clear W'. assumption. }
  pose proof (split_wf (lit "/") keyPath Wpath) as Wsegs.
  clear Hmap. induction Hdec as [|seg dec segs decs Hd _ IH]; [constructor|].
  inversion_clear Wsegs. constructor; [eapply decodeURIComponent_wf; eauto | auto].
Qed.

(** A double-encoded segment comes out single-encoded: [a%2520b.png]
    becomes [a%20b.png] in the key. *)
Lemma getResizedUrl_storage_url_witness :
  exists b64,
    getResizedUrl double_encoded_url (resize_request 640)
    = Normal (cloudfrontHostname ++ lit "/" ++ b64) /\
    decode_request b64
    = Some (JObj [(lit "bucket", JStr (lit "ntmg-media"));
                  (lit "key", JStr (lit "photos/a%20b.png"));
                  (lit "edits", resize_request 640)]).
Proof.
  apply (getResizedUrl_storage_url double_encoded_url (lit "https://")
           (lit "photos/a%2520b.png") [lit "photos"; lit "a%20b.png"]
           (resize_request 640)).
  - apply wf_string_forallb. reflexivity.
  - cbn [resize_request wf_json].
    repeat split; try (apply wf_string_forallb; reflexivity); discriminate.
  - reflexivity.
  - repeat constructor.
Defined.

(** C1 as stated fails: this URL splits into exactly two parts, yet no
    string is returned, because [100%.png] is not a percent-encoding. *)
Lemma getResizedUrl_storage_url_counterexample :
  split (s3Hostname ++ lit "/") malformed_escape_url
  = [lit "https://"; lit "photos/100%.png"]
  /\ getResizedUrl malformed_escape_url (resize_request 640) = Throw URIError.
Proof. split; reflexivity. Qed.

(** C3: [getResizedUrl] throws on a storage URL with a malformed
    percent-encoding in its path, whatever the edit request. *)
Theorem getResizedUrl_throws (edit : json) :
  getResizedUrl malformed_escape_url edit = Throw URIError
  /\ returns (getResizedUrl malformed_escape_url edit) = false.
Proof. split; reflexivity. Qed.




(** C5: a URL without the storage host name in it, and a URL that has it
    but does not split into exactly two parts, both come back unchanged. *)
Theorem getResizedUrl_passthrough (url : jsstring) (edit : json) :
  (includes s3Hostname url = false -> getResizedUrl url edit = Normal url)
  /\ (includes s3Hostname url = true ->
      List.length (split (s3Hostname ++ lit "/") url) <> 2%nat ->
      getResizedUrl url edit = Normal url).
Proof.
  destruct url as [|c url]; [split; reflexivity|].
  unfold getResizedUrl. split.
  - intros ->. reflexivity.
  - intros -> H. apply Nat.eqb_neq in H. rewrite H. reflexivity.
Qed.

Lemma getResizedUrl_passthrough_witness :
  getResizedUrl unrelated_url (resize_request 640) = Normal unrelated_url
  /\ getResizedUrl s3Hostname (resize_request 640) = Normal s3Hostname
  /\ getResizedUrl twice_url (resize_request 640) = Normal twice_url.
Proof.
  split; [|split].
  - apply (proj1 (getResizedUrl_passthrough unrelated_url (resize_request 640))).
    reflexivity.
  - apply (proj2 (getResizedUrl_passthrough s3Hostname (resize_request 640)));
      [reflexivity | vm_compute; discriminate].
  - apply (proj2 (getResizedUrl_passthrough twice_url (resize_request 640)));
      [reflexivity | vm_compute; discriminate].
Defined.

(** C6: the empty string comes back as the empty string. *)
Theorem getResizedUrl_empty (edit : json) : getResizedUrl [] edit = Normal [].
Proof. reflexivity. Qed.

(* ================================================================== *)
(** ** Class lists *)

Lemma contains_filter_same (t : jsstring) (cl : list jsstring) :
  contains (filter (fun x => negb (str_eqb t x)) cl) t = false.
Proof.
  unfold contains. induction cl as [|x cl IH]; [reflexivity|].
  cbn [filter]. destruct (str_eqb t x) eqn:E; cbn [negb]; [exact IH|].
  cbn [existsb]. rewrite E. exact IH.
Qed.

Lemma contains_filter_other (t t' : jsstring) (cl : list jsstring) :
  str_eqb t' t = false ->
  contains (filter (fun x => negb (str_eqb t x)) cl) t' = contains cl t'.
Proof.
  intros N. unfold contains. induction cl as [|x cl IH]; [reflexivity|].
  cbn [filter existsb]. destruct (str_eqb t x) eqn:E; cbn [negb].
  - apply str_eqb_eq in E. subst x. rewrite N. exact IH.
  - cbn [existsb]. rewrite IH. reflexivity.
Qed.

Lemma contains_toggled (t t' : jsstring) (force : bool) (cl : list jsstring) :
  contains (toggled t force cl) t'
  = if str_eqb t' t then force else contains cl t'.
Proof.
  unfold toggled. destruct (str_eqb t' t) eqn:E.
  - apply str_eqb_eq in E. subst t'.
    destruct (contains cl t) eqn:C, force; try assumption.
    + apply contains_filter_same.
    + unfold contains in *. rewrite existsb_app, C. cbn [existsb].
      rewrite str_eqb_refl. reflexivity.
  - destruct (contains cl t), force; try reflexivity.
    + apply contains_filter_other, E.
    + unfold contains. rewrite existsb_app. cbn [existsb].
      rewrite E, !orb_false_r. reflexivity.
Qed.

(* ================================================================== *)
(** ** toggleStatus *)

(** [toggleStatus] never throws: its three tokens are valid, and it leaves
    everything but the wrapper's class list alone. *)
Lemma toggleStatus_eq (ui : Ui) (status : jsstring) :
  toggleStatus ui status =
  Normal (with_wrapper ui
            (with_classList (wrapper (nodes ui))
               (toggled (lit "image-tool--filled") (str_eqb status FILLED)
                  (toggled (lit "image-tool--loading") (str_eqb status UPLOADING)
                     (toggled (lit "image-tool--empty") (str_eqb status EMPTY)
                        (classList (wrapper (nodes ui)))))))).
Proof. reflexivity. Qed.

Lemma statuses_cases (name : jsstring) :
  In name statuses <-> name = EMPTY \/ name = UPLOADING \/ name = FILLED.
Proof.
  unfold statuses, Ui_status. cbn [List.map snd In].
  intuition congruence.
Qed.

Lemma active_toggleStatus (ui ui' : Ui) (status name : jsstring) :
  toggleStatus ui status = Normal ui' -> In name statuses ->
  active ui' name = str_eqb status name.
Proof.
  rewrite toggleStatus_eq. intros [= <-] H.
  apply statuses_cases in H. unfold active.
  cbn [with_wrapper with_nodes nodes wrapper api with_classList classList].
  rewrite !contains_toggled.
  destruct H as [-> | [-> | ->]]; reflexivity.
Qed.

Lemma str_eqb_status (status name : jsstring) :
  str_eqb status name = true <-> name = status.
Proof. rewrite str_eqb_eq. split; congruence. Qed.

Lemma for_each_app {S A} (xs ys : list A) (body : S -> A -> completion S) (s : S) :
  for_each (xs ++ ys) body s = (s' <- for_each xs body s ;; for_each ys body s').
Proof.
  revert s. induction xs as [|x xs IH]; intros s; cbn [app for_each bind].
  - reflexivity.
  - destruct (body s x); cbn [bind]; [apply IH | reflexivity].
Qed.

Lemma toggleStatus_calls_return (calls : list jsstring) :
  forall ui, exists ui', for_each calls toggleStatus ui = Normal ui'.
Proof.
  induction calls as [|s calls IH]; intros ui; cbn [for_each].
  - eauto.
  - rewrite toggleStatus_eq. cbn [bind]. apply IH.
Qed.

(** C2: after any sequence of [toggleStatus] calls, the last of them with a
    value of the enum, the call has returned and exactly one of the three
    markers is on the wrapper: the marker of that last value. *)
Theorem toggleStatus_exactly_one
        (ui : Ui) (calls : list jsstring) (status : jsstring) :
  In status statuses ->
  exists ui',
    for_each (calls ++ [status]) toggleStatus ui = Normal ui' /\
    forall name, In name statuses -> (active ui' name = true <-> name = status).
Proof.
  intros Hs. rewrite for_each_app.
  destruct (toggleStatus_calls_return calls ui) as (ui1 & ->).
  cbn [bind for_each]. rewrite toggleStatus_eq. cbn [bind].
  eexists. split; [reflexivity|]. intros name Hn.
  rewrite (active_toggleStatus ui1 _ status name (toggleStatus_eq ui1 status) Hn).
  apply str_eqb_status.
Qed.

Lemma toggleStatus_exactly_one_witness :
  exists ui',
    for_each ([EMPTY; UPLOADING] ++ [FILLED]) toggleStatus (sample_ui false)
    = Normal ui' /\
    forall name, In name statuses -> (active ui' name = true <-> name = FILLED).
Proof.
  apply (toggleStatus_exactly_one (sample_ui false) [EMPTY; UPLOADING] FILLED).
  right; right; left; reflexivity.
Defined.

(** C9: called with a string that is none of the three enum values,
    [toggleStatus] returns and leaves none of the three markers on the
    wrapper. *)
Theorem toggleStatus_unknown (ui : Ui) (status : jsstring) :
  ~ In status statuses ->
  exists ui',
    toggleStatus ui status = Normal ui' /\
    forall name, In name statuses -> active ui' name = false.
Proof.
  intros Hs. eexists. split; [apply toggleStatus_eq|]. intros name Hn.
  rewrite (active_toggleStatus ui _ status name (toggleStatus_eq ui status) Hn).
  apply str_eqb_neq. intros ->. contradiction.
Qed.

Lemma toggleStatus_unknown_witness :
  exists ui',
    toggleStatus (sample_ui false) (lit "done") = Normal ui' /\
    forall name, In name statuses -> active ui' name = false.
Proof.
  apply (toggleStatus_unknown (sample_ui false) (lit "done")).
  intros H. apply statuses_cases in H. destruct H as [H | [H | H]]; discriminate H.
Defined.

(* ================================================================== *)
(** ** render *)

Lemma sample_ui_constructed (optimize : bool) :
  new_Ui sample_api (sample_config optimize) false (lit "<svg/>")
  = Normal (sample_ui optimize).
Proof. destruct optimize; reflexivity. Qed.

Lemma indices_nil (n : nat) : indices n = [] <-> n = 0%nat.
Proof.
  unfold indices. destruct n as [|n]; [tauto|].
  cbn [seq List.map]. split; discriminate.
Qed.

(** The values [Object.keys] finds no key in. *)
Lemma Object_keys_nil (v : option json) :
  Object_keys v = [] <->
  match v with
  | Some (JObj (_ :: _)) | Some (JArr (_ :: _)) | Some (JStr (_ :: _)) => False
  | _ => True
  end.
Proof.
  destruct v as [[| | | [|c s] | [|e l] | [|[k e] l]]|]; cbn [Object_keys];
    try tauto;
    try (rewrite indices_nil; cbn [List.length]; split; [discriminate | contradiction]);
    cbn [List.map]; split; (discriminate || contradiction).
Qed.

(** C10 (as amended): [render] sets the status to EMPTY when
    [toolData.file] is falsy or [Object.keys(toolData.file)] is empty, and
    to UPLOADING otherwise; it returns, and what it returns is the wrapper.
    [Object_keys_nil] lists the values without keys: besides the object
    with no own keys, the empty array and every number and boolean. *)
Theorem render_status (ui : Ui) (toolData : ImageToolData) :
  exists ui',
    render ui toolData = Normal (ui', wrapper (nodes ui')) /\
    (truthy (file toolData) = false \/ Object_keys (file toolData) = [] ->
     toggleStatus ui EMPTY = Normal ui' /\
     forall name, In name statuses -> (active ui' name = true <-> name = EMPTY)) /\
    (truthy (file toolData) = true /\ Object_keys (file toolData) <> [] ->
     toggleStatus ui UPLOADING = Normal ui' /\
     forall name, In name statuses -> (active ui' name = true <-> name = UPLOADING)).
Proof.
  unfold render.
  assert (Hcond : negb (truthy (file toolData))
                  || (List.length (Object_keys (file toolData)) =? 0)%nat = true
                  <-> truthy (file toolData) = false
                      \/ Object_keys (file toolData) = []).
  { rewrite orb_true_iff, negb_true_iff, Nat.eqb_eq, length_zero_iff_nil. tauto. }
  destruct (negb (truthy (file toolData))
            || (List.length (Object_keys (file toolData)) =? 0)%nat) eqn:C;
    rewrite toggleStatus_eq; cbn [bind]; eexists; (split; [reflexivity|]); split.
  - intros _. split; [apply toggleStatus_eq|]. intros name Hn.
    rewrite (active_toggleStatus ui _ EMPTY name (toggleStatus_eq ui EMPTY) Hn).
    apply str_eqb_status.
  - intros [T K]. exfalso. destruct (proj1 Hcond eq_refl); congruence.
  - intros H. apply Hcond in H. discriminate H.
  - intros _. split; [apply toggleStatus_eq|]. intros name Hn.
    rewrite (active_toggleStatus ui _ UPLOADING name (toggleStatus_eq ui UPLOADING) Hn).
    apply str_eqb_status.
Qed.

Lemma render_status_witness :
  (exists ui',
     render (sample_ui false) (mkToolData None [])
     = Normal (ui', wrapper (nodes ui'))
     /\ toggleStatus (sample_ui false) EMPTY = Normal ui'
     /\ forall name, In name statuses -> (active ui' name = true <-> name = EMPTY))
  /\
  (exists ui',
     render (sample_ui false) (mkToolData (Some (JObj [])) [])
     = Normal (ui', wrapper (nodes ui'))
     /\ toggleStatus (sample_ui false) EMPTY = Normal ui'
     /\ forall name, In name statuses -> (active ui' name = true <-> name = EMPTY))
  /\
  (exists ui',
     render (sample_ui false)
            (mkToolData (Some (JObj [(lit "url", JStr unrelated_url)])) [])
     = Normal (ui', wrapper (nodes ui'))
     /\ toggleStatus (sample_ui false) UPLOADING = Normal ui'
     /\ forall name, In name statuses
                     -> (active ui' name = true <-> name = UPLOADING)).
Proof.
  split; [|split].
  - destruct (render_status (sample_ui false) (mkToolData None []))
      as (ui' & R & E & _).
    exists ui'. split; [exact R|]. apply E. left. reflexivity.
  - destruct (render_status (sample_ui false) (mkToolData (Some (JObj [])) []))
      as (ui' & R & E & _).
    exists ui'. split; [exact R|]. apply E. right. reflexivity.
  - destruct (render_status (sample_ui false)
                (mkToolData (Some (JObj [(lit "url", JStr unrelated_url)])) []))
      as (ui' & R & _ & U).
    exists ui'. split; [exact R|]. apply U. split; [reflexivity | discriminate].
Defined.

(** C10 as stated fails: [true] is neither falsy nor an object with no own
    keys, and [render] sets the status to EMPTY all the same, because
    [Object.keys(true)] is empty. *)
Lemma render_status_counterexample :
  truthy (Some (JBool true)) = true
  /\ Some (JBool true) <> Some (JObj [])
  /\ exists ui',
       render (sample_ui false) (mkToolData (Some (JBool true)) [])
       = Normal (ui', wrapper (nodes ui'))
       /\ active ui' EMPTY = true /\ active ui' UPLOADING = false.
Proof.
  split; [reflexivity|]. split; [discriminate|]. eexists. repeat split.
Qed.

Example render_empty_object :
  exists ui',
    render (sample_ui false) (mkToolData (Some (JObj [])) [])
    = Normal (ui', wrapper (nodes ui'))
    /\ active ui' EMPTY = true /\ active ui' UPLOADING = false.
Proof. eexists. repeat split. Qed.

Example render_saved_file :
  exists ui',
    render (sample_ui false)
           (mkToolData (Some (JObj [(lit "url", JStr unrelated_url)])) [])
    = Normal (ui', wrapper (nodes ui'))
    /\ active ui' UPLOADING = true /\ active ui' EMPTY = false.
Proof. eexists. repeat split. Qed.

(* ================================================================== *)
(** ** fillImage *)

Lemma fillImage_eq (ui : Ui) (url : jsstring) :
  fillImage ui url =
  (responsive <-
     (if optimizeImages ui then
        candidates <- mapM (srcset_candidate url) srcset_widths ;;
        Normal [(lit "srcset", PStr (join (lit ", ") candidates));
                (lit "sizes", PStr (lit "100vw"))]
      else Normal []) ;;
   Normal (mount ui (media_element url responsive))).
Proof.
  unfold fillImage, media_element, media_tag, mount.
  destruct (optimizeImages ui);
    [destruct (mapM (srcset_candidate url) srcset_widths)|];
    destruct (endsWith (lit ".mp3") url), (endsWith (lit ".mp4") url);
    reflexivity.
Qed.

Lemma current_imageEl_mount (ui : Ui) (el : Element) :
  current_imageEl (mount ui el) = Some el.
Proof.
  unfold current_imageEl, mount. cbn [nodes imageEl media].
  rewrite nth_error_app2 by apply Nat.le_refl.
  rewrite Nat.sub_diag. reflexivity.
Qed.

Lemma media_tag_cases (url : jsstring) :
  media_tag url = lit "AUDIO" \/ media_tag url = lit "VIDEO"
  \/ media_tag url = lit "IMG".
Proof.
  unfold media_tag.
  destruct (endsWith (lit ".mp3") url), (endsWith (lit ".mp4") url); auto.
Qed.

Lemma lookup_responsive_absent (url : jsstring) (k : jsstring) :
  k = lit "srcset" \/ k = lit "sizes" ->
  lookup k (props (media_element url [])) = None.
Proof.
  unfold media_element. cbn [props app].
  destruct (media_tag_cases url) as [-> | [-> | ->]];
    intros [-> | ->]; reflexivity.
Qed.

Lemma lookup_responsive_present (url srcSet : jsstring) :
  let el := media_element url [(lit "srcset", PStr srcSet);
                               (lit "sizes", PStr (lit "100vw"))] in
  lookup (lit "srcset") (props el) = Some (PStr srcSet)
  /\ lookup (lit "sizes") (props el) = Some (PStr (lit "100vw")).
Proof. split; reflexivity. Qed.

Lemma fillImage_throws (ui : Ui) :
  optimizeImages ui = true ->
  fillImage ui malformed_escape_video = Throw URIError.
Proof. intros H. rewrite fillImage_eq, H. reflexivity. Qed.

(** C7: with responsive images on, [fillImage] throws on this storage URL,
    which ends in [.mp4]: no video element is made. *)
Theorem fillImage_video_throws :
  endsWith (lit ".mp4") malformed_escape_video = true
  /\ optimizeImages (sample_ui true) = true
  /\ fillImage (sample_ui true) malformed_escape_video = Throw URIError.
Proof.
  split; [reflexivity|]. split; [reflexivity|].
  apply fillImage_throws. reflexivity.
Qed.

(** C8 as stated fails: with the flag on, the video element made for this
    URL carries [srcset] and [sizes] like an image would. *)
Lemma fillImage_srcset_counterexample :
  exists ui' el,
    fillImage (sample_ui true) video_url = Normal ui'
    /\ current_imageEl ui' = Some el
    /\ tagName el = lit "VIDEO"
    /\ lookup (lit "srcset") (props el)
       = Some (PStr (lit "https://example.com/clip.mp4 640w, https://example.com/clip.mp4 750w, https://example.com/clip.mp4 828w, https://example.com/clip.mp4 1080w"))
    /\ lookup (lit "sizes") (props el) = Some (PStr (lit "100vw")).
Proof. do 2 eexists. repeat split. Qed.

(** C8 (as amended): with the flag off, the element [fillImage] makes has
    neither [srcset] nor [sizes]; with the flag on, and the four resized
    URLs built without error, the element has them whatever its kind:
    [srcset] lists the resized URLs for the widths 640, 750, 828 and 1080,
    each followed by a space, its width and [w], joined by a comma and a
    space in that order, and [sizes] is [100vw]. *)
Theorem fillImage_srcset (ui : Ui) (url : jsstring) :
  (optimizeImages ui = false ->
   exists ui' el,
     fillImage ui url = Normal ui' /\ current_imageEl ui' = Some el
     /\ lookup (lit "srcset") (props el) = None
     /\ lookup (lit "sizes") (props el) = None)
  /\ (forall r640 r750 r828 r1080 : jsstring,
      optimizeImages ui = true ->
      getResizedUrl url (resize_request 640) = Normal r640 ->
      getResizedUrl url (resize_request 750) = Normal r750 ->
      getResizedUrl url (resize_request 828) = Normal r828 ->
      getResizedUrl url (resize_request 1080) = Normal r1080 ->
      exists ui' el,
        fillImage ui url = Normal ui' /\ current_imageEl ui' = Some el
        /\ tagName el = media_tag url
        /\ lookup (lit "srcset") (props el)
           = Some (PStr (join (lit ", ")
                           [r640 ++ lit " 640w"; r750 ++ lit " 750w";
                            r828 ++ lit " 828w"; r1080 ++ lit " 1080w"]))
        /\ lookup (lit "sizes") (props el) = Some (PStr (lit "100vw"))).
Proof.
  split.
  - intros H. rewrite fillImage_eq, H. cbn [bind].
    do 2 eexists. split; [reflexivity|]. split; [apply current_imageEl_mount|].
    split; apply lookup_responsive_absent; auto.
  - intros r640 r750 r828 r1080 H H1 H2 H3 H4.
    rewrite fillImage_eq, H.
    unfold srcset_widths. cbn [mapM]. unfold srcset_candidate.
    rewrite H1, H2, H3, H4. cbn [bind].
    do 2 eexists. split; [reflexivity|]. split; [apply current_imageEl_mount|].
    split; [reflexivity|]. apply lookup_responsive_present.
Qed.

Lemma fillImage_srcset_witness :
  (exists ui' el,
     fillImage (sample_ui false) video_url = Normal ui'
     /\ current_imageEl ui' = Some el
     /\ lookup (lit "srcset") (props el) = None
     /\ lookup (lit "sizes") (props el) = None)
  /\ (exists ui' el,
        fillImage (sample_ui true) unrelated_url = Normal ui'
        /\ current_imageEl ui' = Some el
        /\ tagName el = media_tag unrelated_url
        /\ lookup (lit "srcset") (props el)
           = Some (PStr (join (lit ", ")
                           [unrelated_url ++ lit " 640w"; unrelated_url ++ lit " 750w";
                            unrelated_url ++ lit " 828w"; unrelated_url ++ lit " 1080w"]))
        /\ lookup (lit "sizes") (props el) = Some (PStr (lit "100vw"))).
Proof.
  split.
  - apply (proj1 (fillImage_srcset (sample_ui false) video_url)). reflexivity.
  - apply (proj2 (fillImage_srcset (sample_ui true) unrelated_url)
             unrelated_url unrelated_url unrelated_url unrelated_url);
      reflexivity.
Defined.

Lemma startsWith_app (a b : jsstring) : startsWith a (a ++ b) = true.
Proof.
  induction a as [|x a IH]; [reflexivity|].
  cbn [app startsWith]. rewrite N.eqb_refl. exact IH.
Qed.

Lemma startsWith_split (a s : jsstring) :
  startsWith a s = true -> exists b, s = a ++ b.
Proof.
  revert s. induction a as [|x a IH]; intros s; [exists s; reflexivity|].
  destruct s as [|y s]; [discriminate|]. cbn [startsWith].
  rewrite andb_true_iff, N.eqb_eq. intros [-> H].
  destruct (IH s H) as (b & ->). exists b. reflexivity.
Qed.

(** [endsWith] is what its name says. *)
Lemma endsWith_spec (suffix s : jsstring) :
  endsWith suffix s = true <-> exists stem, s = stem ++ suffix.
Proof.
  unfold endsWith. split.
  - intros H. apply startsWith_split in H as (b & E).
    exists (List.rev b). rewrite <- (rev_involutive s), E, rev_app_distr.
    rewrite rev_involutive. reflexivity.
  - intros (stem & ->). rewrite rev_app_distr. apply startsWith_app.
Qed.

Lemma mp4_is_not_mp3 (url : jsstring) :
  endsWith (lit ".mp4") url = true -> endsWith (lit ".mp3") url = false.
Proof.
  unfold endsWith. destruct (List.rev url) as [|c r]; [discriminate|].
  cbn [lit List.map list_ascii_of_string List.rev app startsWith].
  destruct (N.eqb_spec (N_of_ascii "4") c) as [<-|]; [reflexivity | discriminate].
Qed.

(** X1: whenever [fillImage] returns, the element it made is of the kind the
    URL's suffix calls for: audio for [.mp3], video for [.mp4], an image
    otherwise; audio and video have [controls], video also [playsinline],
    and they wait for [loadeddata] where an image waits for [load]. *)
Theorem fillImage_element (ui ui' : Ui) (url : jsstring) :
  fillImage ui url = Normal ui' ->
  exists el,
    current_imageEl ui' = Some el
    /\ lookup (lit "src") (props el) = Some (PStr url)
    /\ ((endsWith (lit ".mp3") url = true
         /\ tagName el = lit "AUDIO"
         /\ lookup (lit "controls") (props el) = Some (PBool true)
         /\ lookup (lit "playsinline") (props el) = None
         /\ listeners el = [(lit "loadeddata", MediaReady)])
        \/ (endsWith (lit ".mp4") url = true
            /\ tagName el = lit "VIDEO"
            /\ lookup (lit "controls") (props el) = Some (PBool true)
            /\ lookup (lit "playsinline") (props el) = Some (PBool true)
            /\ listeners el = [(lit "loadeddata", MediaReady)])
        \/ (endsWith (lit ".mp3") url = false
            /\ endsWith (lit ".mp4") url = false
            /\ tagName el = lit "IMG"
            /\ lookup (lit "controls") (props el) = None
            /\ lookup (lit "playsinline") (props el) = None
            /\ listeners el = [(lit "load", MediaReady)])).
Proof.
  rewrite fillImage_eq.
  destruct (if optimizeImages ui
            then candidates <- mapM (srcset_candidate url) srcset_widths ;;
                 Normal [(lit "srcset", PStr (join (lit ", ") candidates));
                         (lit "sizes", PStr (lit "100vw"))]
            else Normal []) as [responsive|] eqn:R; [|discriminate].
  cbn [bind]. intros [= <-]. eexists. split; [apply current_imageEl_mount|].
  split; [reflexivity|].
  assert (Hr : responsive = [] \/ exists s,
               responsive = [(lit "srcset", PStr s); (lit "sizes", PStr (lit "100vw"))]).
  { destruct (optimizeImages ui); [|left; congruence].
    destruct (mapM (srcset_candidate url) srcset_widths); [|discriminate].
    right. eexists. cbn [bind] in R. injection R as <-. reflexivity. }
  unfold media_element, media_tag.
  destruct (endsWith (lit ".mp3") url) eqn:A;
    [|destruct (endsWith (lit ".mp4") url) eqn:V].
  - left. destruct Hr as [-> | (s & ->)]; repeat split.
  - right; left. destruct Hr as [-> | (s & ->)]; repeat split.
  - right; right. destruct Hr as [-> | (s & ->)]; repeat split.
Qed.

Lemma fillImage_element_witness :
  exists el,
    current_imageEl (mount (sample_ui false) (media_element video_url [])) = Some el
    /\ lookup (lit "src") (props el) = Some (PStr video_url)
    /\ ((endsWith (lit ".mp3") video_url = true
         /\ tagName el = lit "AUDIO"
         /\ lookup (lit "controls") (props el) = Some (PBool true)
         /\ lookup (lit "playsinline") (props el) = None
         /\ listeners el = [(lit "loadeddata", MediaReady)])
        \/ (endsWith (lit ".mp4") video_url = true
            /\ tagName el = lit "VIDEO"
            /\ lookup (lit "controls") (props el) = Some (PBool true)
            /\ lookup (lit "playsinline") (props el) = Some (PBool true)
            /\ listeners el = [(lit "loadeddata", MediaReady)])
        \/ (endsWith (lit ".mp3") video_url = false
            /\ endsWith (lit ".mp4") video_url = false
            /\ tagName el = lit "IMG"
            /\ lookup (lit "controls") (props el) = None
            /\ lookup (lit "playsinline") (props el) = None
            /\ listeners el = [(lit "load", MediaReady)])).
Proof.
  apply (fillImage_element (sample_ui false)
           (mount (sample_ui false) (media_element video_url [])) video_url).
  reflexivity.
Defined.

(** X3: without responsive images [fillImage] always returns. *)
Theorem fillImage_plain_returns (ui : Ui) (url : jsstring) :
  optimizeImages ui = false ->
  fillImage ui url = Normal (mount ui (media_element url [])).
Proof. intros H. rewrite fillImage_eq, H. reflexivity. Qed.

Lemma fillImage_plain_returns_witness :
  fillImage (sample_ui false) malformed_escape_video
  = Normal (mount (sample_ui false) (media_element malformed_escape_video [])).
Proof. apply (fillImage_plain_returns (sample_ui false)). reflexivity. Defined.

(** X2: when the event the element waits for fires, the status becomes
    FILLED and the preloader's background is cleared. *)
Theorem fillImage_ready (ui ui' : Ui) (url : jsstring) :
  fillImage ui url = Normal ui' ->
  exists el ui'',
    current_imageEl ui' = Some el
    /\ dispatchEvent el (ready_event (media_tag url)) ui' = Normal ui''
    /\ (forall name, In name statuses -> (active ui'' name = true <-> name = FILLED))
    /\ backgroundImage (imagePreloader (nodes ui'')) = [].
Proof.
  rewrite fillImage_eq.
  destruct (if optimizeImages ui
            then candidates <- mapM (srcset_candidate url) srcset_widths ;;
                 Normal [(lit "srcset", PStr (join (lit ", ") candidates));
                         (lit "sizes", PStr (lit "100vw"))]
            else Normal []) as [responsive|]; [|discriminate].
  cbn [bind]. intros [= <-].
  set (ui1 := mount ui (media_element url responsive)).
  assert (D : dispatchEvent (media_element url responsive)
                            (ready_event (media_tag url)) ui1
              = run_handler MediaReady ui1).
  { unfold dispatchEvent, media_element. cbn [listeners filter fst].
    rewrite str_eqb_refl. cbn [for_each snd].
    destruct (run_handler MediaReady ui1); reflexivity. }
  eexists. eexists. split; [apply current_imageEl_mount|].
  rewrite D. unfold run_handler. rewrite toggleStatus_eq. cbn [bind].
  split; [reflexivity|]. split; [|reflexivity].
  intros name Hn.
  pose proof (active_toggleStatus ui1 _ FILLED name (toggleStatus_eq ui1 FILLED) Hn) as A.
  unfold active in *.
  cbn [with_imagePreloader with_wrapper with_nodes nodes wrapper api] in *.
  rewrite A. apply str_eqb_status.
Qed.

Lemma fillImage_ready_witness :
  exists el ui'',
    current_imageEl (mount (sample_ui false) (media_element video_url [])) = Some el
    /\ dispatchEvent el (ready_event (media_tag video_url))
                     (mount (sample_ui false) (media_element video_url []))
       = Normal ui''
    /\ (forall name, In name statuses -> (active ui'' name = true <-> name = FILLED))
    /\ backgroundImage (imagePreloader (nodes ui'')) = [].
Proof.
  apply (fillImage_ready (sample_ui false)
           (mount (sample_ui false) (media_element video_url [])) video_url).
  reflexivity.
Defined.
